(** * The natural-language Slack command parser of the AI-message route

    Shallow embedding of [parseAICommand] and of the fallback branch of
    [POST] in [src/app/api/integrations/slack/send-message/route.ts]
    (the third module of that file, lines 385-604).

    Strings.  A JavaScript string is a sequence of UTF-16 code units.  The
    embedding uses Rocq's [string], whose characters are the 256 code units
    U+0000..U+00FF; [toLowerCase], white space and line terminators are
    written out for exactly this range, so every definition below agrees
    with the JavaScript operation on every string of such code units.

    Regular expressions.  The regular expressions of the source are written
    as terms of [regex] and run by a backtracking matcher in
    continuation-passing style, the way ECMAScript specifies matching:
    alternatives left to right, greedy quantifiers longest first, lazy
    quantifiers shortest first, the leftmost start index first.

    Exceptions.  The one operation of [parseAICommand] that can throw is a
    method call on a group of a match that is [undefined]; results are
    [completion]s, so that its absence is a theorem and not an assumption. *)

From Stdlib Require Import Strings.String Strings.Ascii NArith.BinNat Bool.Bool Lists.List Lia.
From Stdlib Require Import QArith.QArith_base QArith.Qround.
From stdpp Require Import gmap strings.

Local Open Scope string_scope.

(** ** Characters *)

Module Chars.

Definition code (c : ascii) : N := N_of_ascii c.

(** [\s] and [String.prototype.trim]: TAB, LF, VT, FF, CR, SP, NBSP. *)
Definition isWhiteSpace (c : ascii) : bool :=
  let n := code c in
  ((9 <=? n) && (n <=? 13) || (n =? 32) || (n =? 160))%N.

(** [.] without the [s] flag: anything but LF and CR. *)
Definition isDot (c : ascii) : bool :=
  let n := code c in
  negb ((n =? 10) || (n =? 13))%N.

Definition dquote : ascii := ascii_of_N 34.
Definition squote : ascii := ascii_of_N 39.
Definition backtick : ascii := ascii_of_N 96.

(** The class of the three quote characters: apostrophe, double quote and
    backtick. *)
Definition isQuote (c : ascii) : bool :=
  Ascii.eqb c squote || Ascii.eqb c dquote || Ascii.eqb c backtick.

(** Its complement. *)
Definition notQuote (c : ascii) : bool := negb (isQuote c).

(** Upper-case letters of U+0000..U+00FF: A-Z, and U+00C0..U+00DE but the
    multiplication sign U+00D7. *)
Definition isUpper (c : ascii) : bool :=
  let n := code c in
  ((65 <=? n) && (n <=? 90) || (192 <=? n) && (n <=? 222) && negb (n =? 215))%N.

Definition toLowerChar (c : ascii) : ascii :=
  if isUpper c then ascii_of_N (code c + 32) else c.

(** A literal character of a pattern with the [i] flag.  The patterns of the
    source hold ASCII letters only, and no character above U+007F
    canonicalizes to an ASCII one, so comparing the lower-case forms is the
    ECMAScript comparison. *)
Definition eqbIgnoreCase (a c : ascii) : bool :=
  Ascii.eqb (toLowerChar a) (toLowerChar c).

End Chars.
Import Chars.

(** ** String operations of the JavaScript library *)

Module JsString.

Fixpoint toLowerCase (s : string) : string :=
  match s with
  | EmptyString => EmptyString
  | String c s' => String (toLowerChar c) (toLowerCase s')
  end.

Fixpoint trimStart (s : string) : string :=
  match s with
  | String c s' => if isWhiteSpace c then trimStart s' else s
  | EmptyString => EmptyString
  end.

Fixpoint trimEnd (s : string) : string :=
  match s with
  | EmptyString => EmptyString
  | String c s' =>
      match trimEnd s' with
      | EmptyString => if isWhiteSpace c then EmptyString else String c EmptyString
      | t => String c t
      end
  end.

Definition trim (s : string) : string := trimEnd (trimStart s).

Definition startsWith (s p : string) : bool := String.prefix p s.

Fixpoint includes (s sub : string) : bool :=
  String.prefix sub s ||
  match s with
  | String _ s' => includes s' sub
  | EmptyString => false
  end.

(** [s.split(sep)] for a separator of one character. *)
Fixpoint split (s : string) (sep : ascii) : list string :=
  match s with
  | EmptyString => [EmptyString]
  | String c s' =>
      match split s' sep with
      | h :: t => if Ascii.eqb c sep then EmptyString :: h :: t else String c h :: t
      | [] => [String c EmptyString]
      end
  end.

Fixpoint allChars (P : ascii -> bool) (s : string) : bool :=
  match s with
  | EmptyString => true
  | String c s' => P c && allChars P s'
  end.

End JsString.
Import JsString.

(** ** Regular expressions *)

Module Regex.

Inductive regex : Type :=
| REmpty
| RChar (p : ascii -> bool)
| RSeq (r1 r2 : regex)
| RAlt (r1 r2 : regex)
| ROpt (r : regex)
| RPlus (p : ascii -> bool)
| RPlusLazy (p : ascii -> bool)
| RGroup (n : nat) (r : regex)
| RBol
| REol.

(** A literal, case-sensitive or (flag [i]) not. *)
Fixpoint lit (s : string) : regex :=
  match s with
  | EmptyString => REmpty
  | String c EmptyString => RChar (Ascii.eqb c)
  | String c s' => RSeq (RChar (Ascii.eqb c)) (lit s')
  end.

Fixpoint liti (s : string) : regex :=
  match s with
  | EmptyString => REmpty
  | String c EmptyString => RChar (eqbIgnoreCase c)
  | String c s' => RSeq (RChar (eqbIgnoreCase c)) (liti s')
  end.

Fixpoint seqs (rs : list regex) : regex :=
  match rs with
  | [] => REmpty
  | [r] => r
  | r :: rs' => RSeq r (seqs rs')
  end.

(** The state of a match: the index reached, the input from there on, and
    the captures made so far (the latest first). *)
Record mstate : Type := MState {
  pos : nat;
  rest : string;
  caps : list (nat * string)
}.

Definition cont : Type := mstate -> option mstate.

(** [p*] greedy: as many characters as possible, one fewer on failure. *)
Fixpoint starGreedy (p : ascii -> bool) (k : cont) (cs : list (nat * string))
    (i : nat) (s : string) : option mstate :=
  match s with
  | String c s' =>
      if p c then
        match starGreedy p k cs (S i) s' with
        | Some r => Some r
        | None => k (MState i s cs)
        end
      else k (MState i s cs)
  | EmptyString => k (MState i s cs)
  end.

(** [p*?] lazy: as few characters as possible, one more on failure. *)
Fixpoint starLazy (p : ascii -> bool) (k : cont) (cs : list (nat * string))
    (i : nat) (s : string) : option mstate :=
  match k (MState i s cs) with
  | Some r => Some r
  | None =>
      match s with
      | String c s' => if p c then starLazy p k cs (S i) s' else None
      | EmptyString => None
      end
  end.

Fixpoint rmatch (r : regex) (st : mstate) (k : cont) : option mstate :=
  match r with
  | REmpty => k st
  | RChar p =>
      match rest st with
      | String c s' => if p c then k (MState (S (pos st)) s' (caps st)) else None
      | EmptyString => None
      end
  | RSeq r1 r2 => rmatch r1 st (fun st1 => rmatch r2 st1 k)
  | RAlt r1 r2 =>
      match rmatch r1 st k with
      | Some x => Some x
      | None => rmatch r2 st k
      end
  | ROpt r1 =>
      match rmatch r1 st k with
      | Some x => Some x
      | None => k st
      end
  | RPlus p =>
      match rest st with
      | String c s' => if p c then starGreedy p k (caps st) (S (pos st)) s' else None
      | EmptyString => None
      end
  | RPlusLazy p =>
      match rest st with
      | String c s' => if p c then starLazy p k (caps st) (S (pos st)) s' else None
      | EmptyString => None
      end
  | RGroup n r1 =>
      rmatch r1 st (fun st1 =>
        k (MState (pos st1) (rest st1)
             ((n, String.substring 0 (pos st1 - pos st) (rest st)) :: caps st1)))
  | RBol => if Nat.eqb (pos st) 0 then k st else None
  | REol =>
      match rest st with
      | EmptyString => k st
      | String _ _ => None
      end
  end.

(** The result of [RegExp.prototype.exec]: where the match starts and ends,
    and the captures. *)
Record matchResult : Type := MatchResult {
  mindex : nat;
  mend : nat;
  mgroups : list (nat * string)
}.

Fixpoint search (r : regex) (i : nat) (s : string) : option matchResult :=
  match rmatch r (MState i s []) Some with
  | Some st => Some (MatchResult i (pos st) (caps st))
  | None =>
      match s with
      | String _ s' => search r (S i) s'
      | EmptyString => None
      end
  end.

(** [s.match(r)] for a pattern without the [g] flag. *)
Definition exec (r : regex) (s : string) : option matchResult := search r 0 s.

(** [m[n]]: [None] is JavaScript's [undefined]. *)
Fixpoint lookupGroup (n : nat) (cs : list (nat * string)) : option string :=
  match cs with
  | [] => None
  | (m, g) :: cs' => if Nat.eqb m n then Some g else lookupGroup n cs'
  end.

Definition group (m : matchResult) (n : nat) : option string :=
  lookupGroup n (mgroups m).

(** [s.replace(r, by)] for a pattern without the [g] flag and a replacement
    text without [$]: the first match only. *)
Definition replace (r : regex) (by_ : string) (s : string) : string :=
  match exec r s with
  | Some m =>
      String.substring 0 (mindex m) s +:+ by_ +:+
      String.substring (mend m) (String.length s - mend m) s
  | None => s
  end.

End Regex.
Import Regex.

(** ** Values, property lookup and exceptions of JavaScript *)

Module Js.

(** What a property read on the object literal [channelMappings] can give:
    a string of its own, [undefined], or a member inherited from
    [Object.prototype]. *)
Inductive jsValue : Type :=
| JUndefined
| JStr (s : string)
| JObjectPrototype
| JNativeFunction (name : string).

(** The members of [Object.prototype], which every object literal
    inherits.  [__proto__] is an accessor that returns the prototype of
    the receiver, here [Object.prototype] itself. *)
Definition objectPrototype (k : string) : jsValue :=
  if String.eqb k "constructor" then JNativeFunction "Object"
  else if String.eqb k "__proto__" then JObjectPrototype
  else if existsb (String.eqb k)
            ["hasOwnProperty"; "isPrototypeOf"; "propertyIsEnumerable";
             "toLocaleString"; "toString"; "valueOf";
             "__defineGetter__"; "__defineSetter__";
             "__lookupGetter__"; "__lookupSetter__"]
       then JNativeFunction k
  else JUndefined.

(** [obj[k]] for an object literal with the own properties [own]. *)
Definition getProperty (own : gmap string string) (k : string) : jsValue :=
  match own !! k with
  | Some v => JStr v
  | None => objectPrototype k
  end.

(** ToBoolean, as the condition of an [if]. *)
Definition toBoolean (v : jsValue) : bool :=
  match v with
  | JUndefined => false
  | JStr s => negb (String.eqb s "")
  | JObjectPrototype => true
  | JNativeFunction _ => true
  end.

(** ToString, as a template literal applies it (the text of a native
    function is the one V8 prints). *)
Definition toString (v : jsValue) : string :=
  match v with
  | JUndefined => "undefined"
  | JStr s => s
  | JObjectPrototype => "[object Object]"
  | JNativeFunction name => "function " +:+ name +:+ "() { [native code] }"
  end.

Inductive jsError : Type := TypeError.

(** The completion of an evaluation: a value, or a thrown exception. *)
Inductive completion (A : Type) : Type :=
| Normal (a : A)
| Throw (e : jsError).
Arguments Normal {A} a.
Arguments Throw {A} e.

#[global] Instance completion_ret : MRet completion := fun A a => Normal a.

#[global] Instance completion_bind : MBind completion := fun A B f c =>
  match c with
  | Normal a => f a
  | Throw e => Throw e
  end.

(** [x.trim()] where [x] is an element of a match array: a method call on
    [undefined] throws a TypeError. *)
Definition trimOf (x : option string) : completion string :=
  match x with
  | Some s => Normal (trim s)
  | None => Throw TypeError
  end.

(** An array element inside a template literal. *)
Definition interpolate (x : option string) : string :=
  match x with
  | Some s => s
  | None => "undefined"
  end.

End Js.
Import Js.

(** ** The route: [parseAICommand] and the fallback of [POST] *)

Module Route.

Record parsedCommand : Type := ParsedCommand {
  message : string;
  channel : string
}.

(** [/(?:hey\s+)?(?:send|message)\s+[QUOTE]([^QUOTE]+)[QUOTE]\s+to\s+(.+)/i],
    QUOTE being the three quote characters (line 389). *)
Definition pattern1 : regex :=
  seqs [ ROpt (RSeq (liti "hey") (RPlus isWhiteSpace));
         RAlt (liti "send") (liti "message");
         RPlus isWhiteSpace;
         RChar isQuote;
         RGroup 1 (RPlus notQuote);
         RChar isQuote;
         RPlus isWhiteSpace;
         liti "to";
         RPlus isWhiteSpace;
         RGroup 2 (RPlus isDot) ].

(** [/(?:tell|notify)\s+(.+?)\s+(?:that\s+)?[QUOTE]?([^QUOTE]+)[QUOTE]?$/i]
    (line 458). *)
Definition pattern2 : regex :=
  seqs [ RAlt (liti "tell") (liti "notify");
         RPlus isWhiteSpace;
         RGroup 1 (RPlusLazy isDot);
         RPlus isWhiteSpace;
         ROpt (RSeq (liti "that") (RPlus isWhiteSpace));
         ROpt (RChar isQuote);
         RGroup 2 (RPlus notQuote);
         ROpt (RChar isQuote);
         REol ].

(** [/(?:in\s+)?(?:the\s+)?(.+?)(?:\s+channel)?$/] (line 403). *)
Definition channelPartPattern : regex :=
  seqs [ ROpt (RSeq (lit "in") (RPlus isWhiteSpace));
         ROpt (RSeq (lit "the") (RPlus isWhiteSpace));
         RGroup 1 (RPlusLazy isDot);
         ROpt (RSeq (RPlus isWhiteSpace) (lit "channel"));
         REol ].

(** [/^(the\s+|a\s+|an\s+)/] (line 417). *)
Definition articlePattern : regex :=
  RSeq RBol
    (RGroup 1 (RAlt (RSeq (lit "the") (RPlus isWhiteSpace))
              (RAlt (RSeq (lit "a") (RPlus isWhiteSpace))
                    (RSeq (lit "an") (RPlus isWhiteSpace))))).

(** [/\s+channel$/] and [/\s+room$/] (lines 418, 419). *)
Definition trailingChannelPattern : regex :=
  seqs [ RPlus isWhiteSpace; lit "channel"; REol ].

Definition trailingRoomPattern : regex :=
  seqs [ RPlus isWhiteSpace; lit "room"; REol ].

(** [/\s+/] (line 420): no [g] flag. *)
Definition spacesPattern : regex := RPlus isWhiteSpace.

(** Lines 424-444. *)
Definition channelMappingsEntries : list (string * string) :=
  [ ("development", "dev");
    ("developer", "dev");
    ("developers", "dev");
    ("programming", "dev");
    ("coding", "dev");
    ("general", "general");
    ("random", "random");
    ("team", "team");
    ("announcements", "announcements");
    ("announce", "announcements");
    ("marketing", "marketing");
    ("sales", "sales");
    ("support", "support");
    ("help", "support");
    ("design", "design");
    ("product", "product");
    ("engineering", "engineering");
    ("tech", "tech");
    ("technology", "tech") ].

Definition channelMappings : gmap string string :=
  list_to_map channelMappingsEntries.

(** Lines 397-411: a channel reference with a slash in it. *)
Definition splitSlash (channel : string) : completion string :=
  if includes channel "/" then
    let parts := split channel "/"%char in
    if Nat.ltb 1 (List.length parts) &&
       match parts !! 1%nat with
       | Some part => includes part "channel"
       | None => false
       end
    then
      let channelPart := default "" (parts !! 1%nat) in
      match exec channelPartPattern channelPart with
      | Some channelMatch => trimOf (group channelMatch 1)
      | None => Normal channel
      end
    else Normal ("@" +:+ interpolate (parts !! 0%nat))
  else Normal channel.

(** Lines 416-421: the chain of replacements that gives [cleanChannel]. *)
Definition cleanChannel (channel : string) : string :=
  trim
    (replace spacesPattern "-"
      (replace trailingRoomPattern ""
        (replace trailingChannelPattern ""
          (replace articlePattern ""
            (toLowerCase channel))))).

(** Lines 414-452: the reference for the target of pattern 1. *)
Definition resolveChannel (channel : string) : string :=
  if negb (startsWith channel "#") && negb (startsWith channel "@") &&
     negb (startsWith channel "C") && negb (startsWith channel "D")
  then
    let clean := cleanChannel channel in
    let mapped := getProperty channelMappings clean in
    "#" +:+ toString (if toBoolean mapped then mapped else JStr clean)
  else channel.

(** Lines 466-468: the reference for the target of pattern 2. *)
Definition prefixChannel (channel : string) : string :=
  if negb (startsWith channel "#") && negb (startsWith channel "@") &&
     negb (startsWith channel "C") && negb (startsWith channel "D")
  then "#" +:+ channel
  else channel.

(** Lines 393-454: the body of [if (match1)]. *)
Definition fromMatch1 (match1 : matchResult) : completion (option parsedCommand) :=
  message ← trimOf (group match1 1);
  channel ← trimOf (group match1 2);
  channel ← splitSlash channel;
  Normal (Some (ParsedCommand message (resolveChannel channel))).

(** Lines 462-470: the body of [if (match2)]. *)
Definition fromMatch2 (match2 : matchResult) : completion (option parsedCommand) :=
  channel ← trimOf (group match2 1);
  message ← trimOf (group match2 2);
  Normal (Some (ParsedCommand message (prefixChannel channel))).

(** Lines 385-474; [None] is [null]. *)
Definition parseAICommand (input : string) : completion (option parsedCommand) :=
  let command := trim (toLowerCase input) in
  match exec pattern1 command with
  | Some match1 => fromMatch1 match1
  | None =>
      match exec pattern2 command with
      | Some match2 => fromMatch2 match2
      | None => Normal None
      end
  end.

(** The members of [IntegrationErrorCodes] this route answers with. *)
Inductive errorCode : Type := INVALID_REQUEST | API_ERROR.

(** What the fallback of [POST] (lines 562-604) does with a command once
    the MCP attempt has not answered: it answers with an error and a list
    of examples, or it goes on to build and initialize the Slack service
    and calls [slackService.sendMessage] on a channel and a text. *)
Inductive outcome : Type :=
| RespondError (status : nat) (code : errorCode) (examples : list string)
| CallSendMessage (channel text : string).

(** Lines 574-578. *)
Definition examples : list string :=
  [ "send 'Hello team!' to #general";
    "message 'Meeting in 5 minutes' to @john";
    "send 'Good morning' to the development channel" ].

(** Lines 562-604, and the [catch] of lines 658-670 for an exception. *)
Definition postFallback (command : string) : outcome :=
  match parseAICommand command with
  | Normal None => RespondError 400 INVALID_REQUEST examples
  | Normal (Some parsed) => CallSendMessage (channel parsed) (message parsed)
  | Throw _ => RespondError 500 API_ERROR []
  end.

End Route.
Import Route.

(** ** Predicates of the statements *)

(** No upper-case letter, as after [toLowerCase]. *)
Definition notUpper (c : ascii) : bool := negb (isUpper c).

(** The first character of [s], when there is one, satisfies [P]. *)
Definition headIs (P : ascii -> bool) (s : string) : bool :=
  match s with
  | String c _ => P c
  | EmptyString => false
  end.

(** [binds n r]: every match of [r] goes through a group numbered [n]. *)
Fixpoint binds (n : nat) (r : regex) : bool :=
  match r with
  | RSeq r1 r2 => binds n r1 || binds n r2
  | RAlt r1 r2 => binds n r1 && binds n r2
  | RGroup m r1 => Nat.eqb m n || binds n r1
  | _ => false
  end.

(** Group [n] is defined in the state [st]. *)
Definition captured (n : nat) (st : mstate) : Prop :=
  is_Some (lookupGroup n (caps st)).

(** The rest of the input and every capture are made of characters that
    satisfy [P]. *)
Definition charsInv (P : ascii -> bool) (st : mstate) : Prop :=
  allChars P (rest st) = true /\
  forall n g, lookupGroup n (caps st) = Some g -> allChars P g = true.

(** The opaque-ID pattern of the specification, [^[A-Z][A-Z0-9]{8,}$].  The
    source has no such test: this definition follows the specification, to
    compare the guard of line 414 with it. *)
Definition specOpaqueId (s : string) : bool :=
  let capital c := ((65 <=? code c) && (code c <=? 90))%N in
  let digit c := ((48 <=? code c) && (code c <=? 57))%N in
  match s with
  | String c s' =>
      capital c && allChars (fun d => capital d || digit d) s' &&
      Nat.leb 8 (String.length s')
  | EmptyString => false
  end.

(** ** The first version of the route *)

(** The second module of [route.ts] (lines 129-365) is the first version of
    the AI-message route.  Its parser has the patterns and the slash
    handling of the later one, and another rule for the sigil. *)
Module RouteV1.

(** Lines 183-188: [#] before a channel that names one of four words. *)
Definition prefixKnownChannel (channel : string) : string :=
  if negb (startsWith channel "#") && negb (startsWith channel "@") &&
     negb (startsWith channel "C") && negb (startsWith channel "D")
  then
    if includes channel "general" || includes channel "dev" ||
       includes channel "team" || includes channel "random"
    then "#" +:+ channel
    else channel
  else channel.

(** Lines 165-191: the body of [if (match1)]. *)
Definition fromMatch1 (match1 : matchResult) : completion (option parsedCommand) :=
  message ← trimOf (group match1 1);
  channel ← trimOf (group match1 2);
  channel ← splitSlash channel;
  Normal (Some (ParsedCommand message (prefixKnownChannel channel))).

(** Lines 157-212. *)
Definition parseAICommand (input : string) : completion (option parsedCommand) :=
  let command := trim (toLowerCase input) in
  match exec pattern1 command with
  | Some match1 => fromMatch1 match1
  | None =>
      match exec pattern2 command with
      | Some match2 => fromMatch2 match2
      | None => Normal None
      end
  end.

End RouteV1.

(** ** The Slack service: [sendMessage] *)

Module Service.

(** [IntegrationErrorCodes] of [integrations/common/types]. *)
Inductive integrationErrorCode : Type :=
| AUTHENTICATION_FAILED | TOKEN_EXPIRED | INVALID_CREDENTIALS
| INSUFFICIENT_PERMISSIONS
| API_ERROR | RATE_LIMITED | SERVICE_UNAVAILABLE
| INVALID_REQUEST | MISSING_REQUIRED_FIELD | INVALID_FORMAT
| RESOURCE_NOT_FOUND | RESOURCE_CONFLICT
| CONFIGURATION_ERROR | INTEGRATION_DISABLED.

(** A value, or a thrown [Error] with its message. *)
Inductive attempt (A : Type) : Type :=
| Returned (a : A)
| Raised (message : string).
Arguments Returned {A} a.
Arguments Raised {A} message.

(** [array.join(sep)]. *)
Fixpoint join (sep : string) (l : list string) : string :=
  match l with
  | [] => ""
  | [x] => x
  | x :: l' => x +:+ sep +:+ join sep l'
  end.

(** [IntegrationUtils.validateInput]: the messages of the issues that the
    schema raises, in the order of its fields, become one [Error]. *)
Definition validateInput {A : Type} (issues : list string) (data : A) : attempt A :=
  match issues with
  | [] => Returned data
  | _ => Raised ("Validation failed: " +:+ join ", " issues)
  end.

(** [z.string().min(1, message)] on a string. *)
Definition minLength1 (message value : string) : list string :=
  if String.eqb value "" then [message] else [].

Record sendMessageRequest : Type := SendMessageRequest {
  requestChannel : string;
  requestText : string
}.

(** The issues of [SendMessageSchema] for a request that holds a channel and
    a text, both strings, as the routes build it. *)
Definition sendMessageIssues (request : sendMessageRequest) : list string :=
  minLength1 "Channel is required" (requestChannel request) ++
  minLength1 "Message text is required" (requestText request).

(** The issues of [SlackConfigSchema] for [{ nangoConnectionId }]. *)
Definition configIssues (nangoConnectionId : string) : list string :=
  minLength1 "Nango connection ID is required" nangoConnectionId.

(** What Nango's [send-message] action answers: the fields of the answer
    that [sendMessage] reads. *)
Record actionResponse : Type := ActionResponse {
  ok : bool;
  error : option string;
  ts : option string
}.

(** A call of [nango.triggerAction('slack', connectionId, 'send-message',
    { channel, text })]. *)
Record actionCall : Type := ActionCall {
  callConnectionId : string;
  callChannel : string;
  callText : string
}.

(** The action is outside the repository: it answers, or it throws. *)
Definition action : Type := actionCall -> attempt actionResponse.

(** [x || fallback] for a string that may be [undefined]. *)
Definition orElse (x : option string) (fallback : string) : string :=
  match x with
  | Some s => if String.eqb s "" then fallback else s
  | None => fallback
  end.

(** The [switch] of [sendMessage] on [response.error]. *)
Definition suggestionsFor (error : option string) : string :=
  match error with
  | Some e =>
      if String.eqb e "not_in_channel" then
        "You are not a member of this channel. Please join the channel first."
      else if String.eqb e "channel_not_found" then
        "The specified channel does not exist or you do not have access to it."
      else if String.eqb e "access_denied" then
        "You do not have permission to post messages to this channel. Check your channel permissions."
      else if String.eqb e "account_inactive" then
        "Your Slack account or workspace is inactive."
      else if String.eqb e "token_expired" then
        "Your authentication token has expired. Please reconnect the integration."
      else if String.eqb e "restricted_action" then
        "Message posting is restricted in this channel. Contact your workspace admin."
      else
        "Please check the channel ID and ensure you have access to post messages."
  | None =>
      "Please check the channel ID and ensure you have access to post messages."
  end.

(** The [IntegrationResponse] of [createResponse], with the fields of the
    data and of the error that the callers read. *)
Inductive integrationResponse : Type :=
| Success (messageId timestamp : string)
| Failure (code : integrationErrorCode) (message : string).

(** [sendMessage(request, authContext)] of the compiled service
    ([integrations/slack/service], lines 80-143), with the configuration set
    by [initialize] and the action: the response, and the calls made of the
    action. *)
Definition sendMessage (config : option string) (triggerAction : action)
    (request : sendMessageRequest) : integrationResponse * list actionCall :=
  match validateInput (sendMessageIssues request) request with
  | Raised message =>
      (Failure API_ERROR ("Failed to send message: " +:+ message), [])
  | Returned validatedRequest =>
      match config with
      | None =>
          (Failure API_ERROR
             ("Failed to send message: " +:+ "Integration not initialized"), [])
      | Some nangoConnectionId =>
          let call := ActionCall nangoConnectionId
                        (requestChannel validatedRequest)
                        (requestText validatedRequest) in
          match triggerAction call with
          | Raised message =>
              (Failure API_ERROR ("Failed to send message: " +:+ message), [call])
          | Returned response =>
              if negb (ok response) then
                let errorMessage :=
                  "Failed to send message: " +:+ orElse (error response) "Unknown error" in
                let suggestions := suggestionsFor (error response) in
                let errorMessage :=
                  if negb (String.eqb suggestions "")
                  then errorMessage +:+ " " +:+ suggestions
                  else errorMessage in
                (Failure API_ERROR errorMessage, [call])
              else
                (Success (orElse (ts response) "") (orElse (ts response) ""), [call])
          end
      end
  end.

End Service.


(** ** The answer of the fallback of [POST] *)

Module Answer.
Import Service.

(** A text between double quotes. *)
Definition quoted (s : string) : string :=
  String dquote (s +:+ String dquote "").

(** The JSON bodies that the fallback answers with. *)
Inductive body : Type :=
| ParseFailure (examples : list string)
| SendFailure (code : integrationErrorCode) (message : string)
    (originalChannel : string) (suggestions : list string)
    (parsedCommand : string * string * string)
| Sent (messageId timestamp : string) (parsedCommand : string * string * string)
| InternalError.

Record answer : Type := Json {
  status : nat;
  content : body
}.

(** Lines 606-649: the answer to a send that failed. *)
Definition sendFailure (command : string) (parsed : parsedCommand)
    (code : integrationErrorCode) (failure : string) : answer :=
  let errorMessage := orElse (Some failure) "Unknown error" in
  let rewritten :=
    if includes errorMessage "channel_not_found" then
      ("Channel " +:+ quoted (channel parsed) +:+ " not found or not accessible",
       [ "Try using exact channel names like #general, #dev, or #random";
         "Make sure you're a member of the channel " +:+ quoted (channel parsed);
         "Use @username for direct messages instead of channel names" ])
    else if includes errorMessage "not_in_channel" then
      ("You're not a member of channel " +:+ quoted (channel parsed),
       [ "Ask an admin to invite you to " +:+ channel parsed;
         "Try a public channel you're already in like #general" ])
    else (errorMessage, []) in
  Json (match code with AUTHENTICATION_FAILED => 401 | _ => 400 end)
       (SendFailure code (fst rewritten) (channel parsed) (snd rewritten)
          (command, message parsed, channel parsed)).

(** Lines 562-670: the fallback of [POST], with the environment variable
    [NANGO_SECRET_KEY], the connection identifier of the request and the
    action of Nango: the answer, and the calls made of the action. *)
Definition postFallbackAnswer (secretKey : option string) (triggerAction : action)
    (nangoConnectionId command : string) : answer * list actionCall :=
  match parseAICommand command with
  | Throw _ => (Json 500 InternalError, [])
  | Normal None => (Json 400 (ParseFailure examples), [])
  | Normal (Some parsed) =>
      if String.eqb (orElse secretKey "") "" then (Json 500 InternalError, [])
      else
        match validateInput (configIssues nangoConnectionId) nangoConnectionId with
        | Raised _ => (Json 500 InternalError, [])
        | Returned config =>
            let (result, calls) :=
              sendMessage (Some config) triggerAction
                (SendMessageRequest (channel parsed) (message parsed)) in
            (match result with
             | Failure code failure => sendFailure command parsed code failure
             | Success messageId timestamp =>
                 Json 200 (Sent messageId timestamp
                             (command, message parsed, channel parsed))
             end, calls)
        end
  end.

End Answer.


(** ** The Slack MCP server: the second parser *)

(** [mcp/slack/server.ts] (the second module of [src/mcp/slack/index.ts]):
    [parseAICommand] (lines 463-524) and [handleAIMessage] (lines 412-458),
    the tool that the routes try before their own fallback. *)
Module McpSlack.
Import Service.

(** [[a-zA-Z0-9\-_]] and [[a-zA-Z0-9\-_.]]. *)
Definition isChannelChar (c : ascii) : bool :=
  let n := code c in
  ((97 <=? n) && (n <=? 122) || (65 <=? n) && (n <=? 90) ||
   (48 <=? n) && (n <=? 57) || (n =? 45) || (n =? 95))%N.

Definition isUserChar (c : ascii) : bool :=
  isChannelChar c || (code c =? 46)%N.

Definition notDquote (c : ascii) : bool := negb (Ascii.eqb c dquote).
Definition notSquote (c : ascii) : bool := negb (Ascii.eqb c squote).
Definition notDquoteSquote (c : ascii) : bool := notDquote c && notSquote c.

(** Lines 467-472. *)
Definition channelPatterns : list regex :=
  [ seqs [ RAlt (lit "to") (lit "in"); lit " "; ROpt (lit "the "); lit "#";
           RGroup 1 (RPlus isChannelChar) ];
    seqs [ RAlt (lit "to") (lit "in"); lit " "; ROpt (lit "the ");
           RGroup 1 (RPlus isChannelChar); lit " channel" ];
    seqs [ lit "@"; RGroup 1 (RPlus isUserChar) ];
    seqs [ RAlt (lit "to") (lit "message"); lit " ";
           RGroup 1 (RPlus isUserChar) ] ].

(** [(?:send|message|tell|say)], case-sensitive or not. *)
Definition verb : regex :=
  RAlt (lit "send") (RAlt (lit "message") (RAlt (lit "tell") (lit "say"))).

Definition verbi : regex :=
  RAlt (liti "send") (RAlt (liti "message") (RAlt (liti "tell") (liti "say"))).

(** Lines 494-499. *)
Definition messagePatterns : list regex :=
  [ seqs [ RBol; verb; lit " ";
           RAlt (seqs [ RChar (Ascii.eqb dquote); RGroup 1 (RPlus notDquote);
                        RChar (Ascii.eqb dquote) ])
          (RAlt (seqs [ RChar (Ascii.eqb squote); RGroup 2 (RPlus notSquote);
                        RChar (Ascii.eqb squote) ])
                (RGroup 3 (RSeq (RChar notDquoteSquote) (RPlusLazy isDot))));
           lit " "; RAlt (lit "to") (lit "in") ];
    seqs [ RBol; verb; lit " "; RGroup 1 (RPlusLazy isDot); lit " ";
           RAlt (lit "to") (RAlt (lit "in") (lit "@")) ];
    seqs [ RChar (Ascii.eqb dquote); RGroup 1 (RPlus notDquote);
           RChar (Ascii.eqb dquote) ];
    seqs [ RChar (Ascii.eqb squote); RGroup 1 (RPlus notSquote);
           RChar (Ascii.eqb squote) ] ].

(** [new RegExp(`\\s+${word}\\s+`, 'i')] (line 515). *)
Definition splitPattern (word : string) : regex :=
  seqs [ RPlus isWhiteSpace; liti word; RPlus isWhiteSpace ].

(** [/^(?:send|message|tell|say)\s+/i] (line 517). *)
Definition leadingVerbPattern : regex :=
  seqs [ RBol; verbi; RPlus isWhiteSpace ].

(** [s.split(r)] for a pattern without groups and no limit, as
    [RegExp.prototype[Symbol.split]]: [t] is the input from index [q] on,
    [piece] the text since the end of the last separator, [skip] what is
    left of a separator that was matched. *)
Fixpoint splitLoop (r : regex) (t : string) (q : nat) (piece : string)
    (skip : nat) : list string :=
  match t with
  | EmptyString => [piece]
  | String c t' =>
      match skip with
      | S n => splitLoop r t' (S q) "" n
      | O =>
          match rmatch r (MState q t []) Some with
          | None => splitLoop r t' (S q) (piece +:+ String c "") 0
          | Some st =>
              if Nat.eqb (pos st) q then
                if String.eqb piece "" then
                  splitLoop r t' (S q) (piece +:+ String c "") 0
                else piece :: splitLoop r t' (S q) (String c "") 0
              else piece :: splitLoop r t' (S q) "" (pos st - q - 1)
          end
      end
  end.

Definition splitRegex (r : regex) (s : string) : list string :=
  match s with
  | EmptyString =>
      match rmatch r (MState 0 "" []) Some with
      | Some _ => []
      | None => [""]
      end
  | _ => splitLoop r s 0 "" 0
  end.

(** [a || b] for values that are strings or [undefined]. *)
Definition orUndefined (a b : option string) : option string :=
  match a with
  | Some s => if String.eqb s "" then b else a
  | None => b
  end.

(** [!x] for a string or [undefined]. *)
Definition falsy (x : option string) : bool :=
  match x with
  | Some s => String.eqb s ""
  | None => true
  end.

(** Lines 478-491: the first channel pattern that matches gives the
    channel. *)
Fixpoint findChannel (normalizedCommand : string) (patterns : list regex)
    : completion (option string) :=
  match patterns with
  | [] => Normal None
  | pattern :: patterns' =>
      match exec pattern normalizedCommand with
      | Some m =>
          match group m 1 with
          | None => Throw TypeError
          | Some channelName =>
              if includes normalizedCommand "@" || includes normalizedCommand "message "
              then Normal (Some (if startsWith channelName "@" then channelName
                                 else "@" +:+ channelName))
              else Normal (Some (if startsWith channelName "#" then channelName
                                 else "#" +:+ channelName))
          end
      | None => findChannel normalizedCommand patterns'
      end
  end.

(** Lines 501-510: [message] is assigned at every pattern that matches, and
    the loop stops at the first truthy one, which it trims. *)
Fixpoint findMessage (command : string) (patterns : list regex)
    (message : option string) : option string :=
  match patterns with
  | [] => message
  | pattern :: patterns' =>
      match exec pattern command with
      | Some m =>
          let message := orUndefined (group m 1) (orUndefined (group m 2) (group m 3)) in
          if falsy message then findMessage command patterns' message
          else option_map trim message
      | None => findMessage command patterns' message
      end
  end.

(** Lines 513-521: the command is split at the first of [to], [in], [@]
    that stands between white space. *)
Fixpoint splitMessage (command : string) (splitWords : list string)
    (message : option string) : option string :=
  match splitWords with
  | [] => message
  | word :: splitWords' =>
      let parts := splitRegex (splitPattern word) command in
      if Nat.leb 2 (List.length parts) then
        Some (trim (replace leadingVerbPattern "" (interpolate (parts !! 0%nat))))
      else splitMessage command splitWords' message
  end.

Record parsedCommand : Type := ParsedCommand {
  channel : option string;
  message : option string
}.

(** Lines 463-524. *)
Definition parseAICommand (command : string) : completion parsedCommand :=
  let normalizedCommand := trim (toLowerCase command) in
  channel ← findChannel normalizedCommand channelPatterns;
  let message := findMessage command messagePatterns None in
  let message :=
    if falsy message && negb (falsy channel)
    then splitMessage command ["to"; "in"; "@"] message
    else message in
  Normal (ParsedCommand channel message).



End McpSlack.


(** ** Retry with exponential back-off *)

(** [IntegrationUtils.retry] of [integrations/common/types] and
    [RetryManager.withRetry] of the front-end utilities.

    Numbers.  The options are JavaScript numbers.  A [number] is the value
    of a double: not a number, an infinity, or a rational; the comparisons
    [<=] and [===] of the loop are those of the values.  The product and
    [Math.pow] round, the latter as the engine chooses, and are parameters
    of the embedding; [Math.min] does not round and is written out.

    The counter.  [attempt] starts at 1 and is incremented by one: it is a
    whole number up to 2^53, where [attempt++] leaves it, 2^53 + 1 being no
    double and rounding to 2^53.

    The function to retry is given by what its calls do, the first, the
    second, and so on.  The loop need not end (with [maxAttempts] infinite
    and a function that always throws it does not): it is run with fuel,
    one unit for each test of [attempt <= maxAttempts]. *)
Module Retry.

Inductive number : Type :=
| NaN
| PlusInfinity
| MinusInfinity
| Finite (q : Q).

Definition ofCount (n : N) : number := Finite (inject_Z (Z.of_N n)).

(** [a <= b]. *)
Definition lessOrEqual (a b : number) : bool :=
  match a, b with
  | NaN, _ | _, NaN => false
  | MinusInfinity, _ | _, PlusInfinity => true
  | Finite p, Finite q => Qle_bool p q
  | _, _ => false
  end.

(** [a === b]. *)
Definition strictlyEqual (a b : number) : bool :=
  match a, b with
  | PlusInfinity, PlusInfinity | MinusInfinity, MinusInfinity => true
  | Finite p, Finite q => Qeq_bool p q
  | _, _ => false
  end.

(** [Math.min(a, b)]. *)
Definition mathMin (a b : number) : number :=
  match a, b with
  | NaN, _ | _, NaN => NaN
  | MinusInfinity, _ | _, MinusInfinity => MinusInfinity
  | PlusInfinity, x | x, PlusInfinity => x
  | Finite p, Finite q => if Qle_bool p q then Finite p else Finite q
  end.

(** The largest value of the counter, 2^53. *)
Definition maxCount : N := 9007199254740992.

(** [attempt++]. *)
Definition increment (attempt : N) : N :=
  if N.eqb attempt maxCount then attempt else N.succ attempt.

Record options : Type := Options {
  maxAttempts : number;
  baseDelay : number;
  maxDelay : number;
  backoffFactor : number
}.

(** The defaults of the destructuring. *)
Definition defaultOptions : options :=
  Options (ofCount 3) (ofCount 1000) (ofCount 10000) (ofCount 2).

Inductive outcome (A E : Type) : Type :=
| Returns (value : A)
| Throws (error : E).
Arguments Returns {A E} value.
Arguments Throws {A E} error.

(** What the promise of [retry] does: it resolves, or it rejects with the
    last error, which is [undefined] when the function was not called. *)
Inductive settled (A E : Type) : Type :=
| Resolved (value : A)
| Rejected (lastError : option E).
Arguments Resolved {A E} value.
Arguments Rejected {A E} lastError.

(** What a run did: how it settled, the delays it handed to [setTimeout],
    in order, and the number of calls it made of the function. *)
Record run (A E : Type) : Type := Run {
  result : settled A E;
  delays : list number;
  calls : nat
}.
Arguments Run {A E} result delays calls.
Arguments result {A E} r.
Arguments delays {A E} r.
Arguments calls {A E} r.

Section Loop.
Context {A E : Type}.
Variable times : number -> number -> number.
Variable mathPow : number -> number -> number.
Variable o : options.
Variable shouldRetry : E -> outcome bool E.
Variable fn : nat -> outcome A E.

(** [Math.min(baseDelay * Math.pow(backoffFactor, attempt - 1), maxDelay)]. *)
Definition delayOf (attempt : N) : number :=
  mathMin
    (times (baseDelay o) (mathPow (backoffFactor o) (ofCount (attempt - 1))))
    (maxDelay o).

(** The [for] loop from [attempt] on, [call] calls of the function having
    been made.  [shouldRetry] answers with the truth value of what it
    returns, or throws, and is asked only when [attempt === maxAttempts]
    does not hold. *)
Fixpoint loop (fuel : nat) (attempt : N) (call : nat) (lastError : option E)
    : option (run A E) :=
  match fuel with
  | O => None
  | S fuel' =>
      if lessOrEqual (ofCount attempt) (maxAttempts o) then
        match fn call with
        | Returns value => Some (Run (Resolved value) [] 1)
        | Throws error =>
            if strictlyEqual (ofCount attempt) (maxAttempts o)
            then Some (Run (Rejected (Some error)) [] 1)
            else
              match shouldRetry error with
              | Throws thrown => Some (Run (Rejected (Some thrown)) [] 1)
              | Returns false => Some (Run (Rejected (Some error)) [] 1)
              | Returns true =>
                  r ← loop fuel' (increment attempt) (S call) (Some error);
                  Some (Run (result r) (delayOf attempt :: delays r) (S (calls r)))
              end
        end
      else Some (Run (Rejected lastError) [] 0)
  end.
End Loop.

(** [RetryManager.withRetry(fn, options)]. *)
Definition withRetry {A E : Type} (times mathPow : number -> number -> number)
    (o : options) (shouldRetry : E -> outcome bool E) (fn : nat -> outcome A E)
    (fuel : nat) : option (run A E) :=
  loop times mathPow o shouldRetry fn fuel 1 0 None.

(** [IntegrationUtils.retry(fn, options)]: every error is retried. *)
Definition retry {A E : Type} (times mathPow : number -> number -> number)
    (o : options) (fn : nat -> outcome A E) (fuel : nat) : option (run A E) :=
  loop times mathPow o (fun _ => Returns true) fn fuel 1 0 None.

End Retry.


(** ** The tool registry *)

(** [MCPToolRegistry] ([mcp/registry.ts], the fourth module of
    [src/mcp/index.ts]): the index of tools, a [Map] from
    [`${serverId}.${toolName}`] to an entry. *)
Module Registry.
Import Service.

Record tool : Type := Tool {
  name : string;
  description : string
}.

(** What the registry reads of a server: its information, and the tools
    that [getTools] returns unless it throws. *)
Record server : Type := Server {
  infoName : string;
  infoVersion : string;
  infoCapabilities : list string;
  infoAuthentication : option string;
  getTools : attempt (list tool)
}.

Record toolRegistryEntry : Type := ToolRegistryEntry {
  serverId : string;
  serverName : string;
  serverVersion : string;
  toolName : string;
  toolDescription : string;
  capabilities : list string;
  authentication : string
}.

Definition toolKey (serverId toolName : string) : string :=
  serverId +:+ "." +:+ toolName.

(** Lines 947-958: the tools of one server go into the index. *)
Definition indexTools (serverId : string) (s : server) (tools : list tool)
    (index : gmap string toolRegistryEntry) : gmap string toolRegistryEntry :=
  fold_left
    (fun index t =>
       <[ toolKey serverId (name t) :=
            ToolRegistryEntry serverId (infoName s) (infoVersion s)
              (name t) (description t) (infoCapabilities s)
              (orElse (infoAuthentication s) "unknown") ]> index)
    tools index.

(** [buildToolIndex] (lines 939-964) over the servers of the registry, in
    the order of the [Map]; a server whose [getTools] throws is skipped. *)
Definition buildToolIndex (servers : list (string * server))
    : gmap string toolRegistryEntry :=
  fold_left
    (fun index '(serverId, s) =>
       match getTools s with
       | Returned tools => indexTools serverId s tools index
       | Raised _ => index
       end)
    servers ∅.

(** [getTool] (lines 1003-1005). *)
Definition getTool (index : gmap string toolRegistryEntry)
    (serverId toolName : string) : option toolRegistryEntry :=
  index !! toolKey serverId toolName.

End Registry.


(** What [SlackMCPServer] ([mcp/slack/server.ts]) gives the registry:
    [getServerInfo] (lines 530-551) and the names and descriptions of
    [getTools] (lines 90-213). *)
Module SlackServer.
Import Service Registry.

Definition tools : list tool :=
  [ Tool "slack_send_message" "Send a message to a Slack channel or user";
    Tool "slack_get_channels" "Get a list of channels in the Slack workspace";
    Tool "slack_get_users" "Get a list of users in the Slack workspace";
    Tool "slack_get_user_info" "Get detailed information about a specific user";
    Tool "slack_health_check"
      "Check the health and connectivity of the Slack integration";
    Tool "slack_ai_message"
      ("Send a message using natural language command parsing (e.g., " +:+
       Answer.quoted "send hello to general channel" +:+ ")") ].

Definition slackServer : server :=
  Server "slack-mcp" "1.0.0"
    [ "messaging"; "channelManagement"; "userManagement"; "healthChecking";
      "aiCommands" ]
    (Some "nango-oauth")
    (Returned tools).

End SlackServer.


(** ** Predicates of the further properties *)

(** [consumes P r]: every character that [r] matches satisfies [P]. *)
Fixpoint consumes (P : ascii -> bool) (r : regex) : Prop :=
  match r with
  | REmpty | RBol | REol => True
  | RChar p | RPlus p | RPlusLazy p => forall c, p c = true -> P c = true
  | RSeq r1 r2 | RAlt r1 r2 => consumes P r1 /\ consumes P r2
  | ROpt r1 | RGroup _ r1 => consumes P r1
  end.

(** The least number of characters that a match of [r] consumes. *)
Fixpoint minLen (r : regex) : nat :=
  match r with
  | REmpty | RBol | REol | ROpt _ => 0
  | RChar _ | RPlus _ | RPlusLazy _ => 1
  | RSeq r1 r2 => minLen r1 + minLen r2
  | RAlt r1 r2 => Nat.min (minLen r1) (minLen r2)
  | RGroup _ r1 => minLen r1
  end.

(** [groupsWithin n P l r]: every group numbered [n] of [r] matches at
    least [l] characters, all of which satisfy [P]. *)
Fixpoint groupsWithin (n : nat) (P : ascii -> bool) (l : nat) (r : regex) : Prop :=
  match r with
  | RSeq r1 r2 | RAlt r1 r2 => groupsWithin n P l r1 /\ groupsWithin n P l r2
  | ROpt r1 => groupsWithin n P l r1
  | RGroup m r1 => (m = n -> consumes P r1 /\ l <= minLen r1) /\ groupsWithin n P l r1
  | _ => True
  end.

(** The text captured for group [n], if any, has at least [l] characters,
    all of which satisfy [P]. *)
Definition groupInv (n : nat) (P : ascii -> bool) (l : nat) (st : mstate) : Prop :=
  forall g, lookupGroup n (caps st) = Some g ->
  allChars P g = true /\ l <= String.length g.

Definition both (P Q : ascii -> bool) (c : ascii) : bool := P c && Q c.

(** What a successful match does to the state: it consumes a prefix [w] of
    the input, of at least [len] characters that all satisfy [Q], moves the
    index by the length of [w], and keeps [groupInv]. *)
Definition advances (n : nat) (P : ascii -> bool) (l : nat) (Q : ascii -> bool)
    (len : nat) (st : mstate) (k : cont) (res : mstate) : Prop :=
  exists w st1,
    rest st = w +:+ rest st1 /\ pos st1 = pos st + String.length w /\
    allChars Q w = true /\ len <= String.length w /\
    groupInv n P l st1 /\ k st1 = Some res.


(** The sigil that [findChannel] puts before the name. *)
Definition sigilOf (normalizedCommand : string) : string :=
  if includes normalizedCommand "@" || includes normalizedCommand "message "
  then "@" else "#".

Definition channelShape (normalizedCommand ch : string) : Prop :=
  exists name,
    ch = sigilOf normalizedCommand +:+ name /\ name <> "" /\
    allChars McpSlack.isUserChar name = true /\ allChars notUpper name = true.


Definition notDot (c : ascii) : bool := negb (Ascii.eqb c ".").

(** Every key of the index is the key of its entry, whose tool name has
    no dot. *)
Definition keyed (index : gmap string Registry.toolRegistryEntry) : Prop :=
  forall k e, index !! k = Some e ->
  k = Registry.toolKey (Registry.serverId e) (Registry.toolName e) /\
  allChars notDot (Registry.toolName e) = true.

(** No tool of any server has a dot in its name. *)
Definition dotless (servers : list (string * Registry.server)) : Prop :=
  forall id s tools t, In (id, s) servers ->
  Registry.getTools s = Service.Returned tools ->
  In t tools -> allChars notDot (Registry.name t) = true.


(** The delays of the attempts [from], ..., [from + k - 1], in order. *)
Definition delaysFrom (times mathPow : Retry.number -> Retry.number -> Retry.number)
    (o : Retry.options) (from k : nat) : list Retry.number :=
  map (fun i => Retry.delayOf times mathPow o (N.of_nat i)) (seq from k).

(** The product and the power without rounding, as the engine gives them
    where the result is a double, to run the loop on examples. *)
Definition exactTimes (a b : Retry.number) : Retry.number :=
  match a, b with
  | Retry.Finite p, Retry.Finite q => Retry.Finite (p * q)
  | _, _ => Retry.NaN
  end.

Definition exactPow (a b : Retry.number) : Retry.number :=
  match a, b with
  | Retry.Finite p, Retry.Finite q => Retry.Finite (Qpower p (Qfloor q))
  | _, _ => Retry.NaN
  end.


(** * Properties *)

(** ** Characters and strings *)

Ltac by_cases_on_char c :=
  destruct c as [[] [] [] [] [] [] [] []]; vm_compute; congruence.

Lemma isUpper_toLowerChar (c : ascii) : isUpper (toLowerChar c) = false.
Proof. by_cases_on_char c. Qed.

Lemma isQuote_not_isWhiteSpace (c : ascii) :
  isQuote c = true -> isWhiteSpace c = false.
Proof. by_cases_on_char c. Qed.

Lemma isQuote_notQuote (c : ascii) : isQuote c = true -> notQuote c = false.
Proof. unfold notQuote. intros ->. reflexivity. Qed.

Section AllChars.
Variable P : ascii -> bool.

Lemma allChars_substring (s : string) (i n : nat) :
  allChars P s = true -> allChars P (String.substring i n s) = true.
Proof.
  revert i n. induction s as [|c s IH]; intros i n H.
  - destruct i, n; reflexivity.
  - simpl in H. apply andb_true_iff in H as [Hc Hs].
    destruct i as [|i]; destruct n as [|n]; simpl; auto.
    rewrite Hc. simpl. auto.
Qed.

Lemma allChars_trimStart (s : string) :
  allChars P s = true -> allChars P (trimStart s) = true.
Proof.
  induction s as [|c s IH]; simpl; intros H; auto.
  apply andb_true_iff in H as [Hc Hs].
  destruct (isWhiteSpace c); auto. simpl. rewrite Hc. auto.
Qed.

Lemma allChars_trimEnd (s : string) :
  allChars P s = true -> allChars P (trimEnd s) = true.
Proof.
  induction s as [|c s IH]; simpl; intros H; auto.
  apply andb_true_iff in H as [Hc Hs]. specialize (IH Hs).
  destruct (trimEnd s) as [|d t].
  - destruct (isWhiteSpace c); simpl; auto. rewrite Hc. reflexivity.
  - change (allChars P (String c (String d t)) = true).
    simpl in *. rewrite Hc. auto.
Qed.

Lemma allChars_trim (s : string) :
  allChars P s = true -> allChars P (trim s) = true.
Proof. intros H. apply allChars_trimEnd, allChars_trimStart, H. Qed.

Lemma allChars_app (s t : string) :
  allChars P (s +:+ t) = allChars P s && allChars P t.
Proof.
  induction s as [|c s IH]; simpl; auto. rewrite IH. apply andb_assoc.
Qed.
End AllChars.

Lemma toLowerCase_notUpper (s : string) : allChars notUpper (toLowerCase s) = true.
Proof.
  induction s as [|c s IH]; simpl; auto.
  unfold notUpper at 1. rewrite isUpper_toLowerChar. exact IH.
Qed.

(** A string without upper-case letters starts with neither [C] nor [D]. *)
Lemma notUpper_startsWith (s p : string) (c : ascii) :
  allChars notUpper s = true -> isUpper c = true ->
  startsWith s (String c p) = false.
Proof.
  intros Hs Hc. unfold startsWith. destruct s as [|d s]; simpl; auto.
  destruct (ascii_dec c d) as [<-|Hne]; [|reflexivity].
  simpl in Hs. unfold notUpper at 1 in Hs. rewrite Hc in Hs. discriminate.
Qed.

Lemma substring_app_exact (w r : string) :
  String.substring 0 (String.length w) (w +:+ r) = w.
Proof.
  induction w as [|c w IH]; simpl.
  - destruct r; reflexivity.
  - rewrite IH. reflexivity.
Qed.

(** ** The matcher *)

Section Invariant.
Variable I : mstate -> Prop.
Hypothesis I_step : forall i c s cs,
  I (MState i (String c s) cs) -> I (MState (S i) s cs).
Hypothesis I_capture : forall st st1 n,
  I st -> I st1 ->
  I (MState (pos st1) (rest st1)
       ((n, String.substring 0 (pos st1 - pos st) (rest st)) :: caps st1)).

Lemma starGreedy_inv p (k : cont) cs s : forall i res,
  I (MState i s cs) -> starGreedy p k cs i s = Some res ->
  exists st', I st' /\ k st' = Some res.
Proof.
  induction s as [|c s IH]; simpl; intros i res HI H; [eauto|].
  destruct (p c); [|eauto].
  destruct (starGreedy p k cs (S i) s) as [r|] eqn:E; [|eauto].
  inversion H; subst. eapply IH; eauto.
Qed.

Lemma starLazy_inv p (k : cont) cs s : forall i res,
  I (MState i s cs) -> starLazy p k cs i s = Some res ->
  exists st', I st' /\ k st' = Some res.
Proof.
  induction s as [|c s IH]; simpl; intros i res HI H.
  - destruct (k (MState i "" cs)) eqn:E; [|discriminate].
    inversion H; subst. eauto.
  - destruct (k (MState i (String c s) cs)) eqn:E.
    + inversion H; subst. eauto.
    + destruct (p c); [|discriminate]. eapply IH; eauto.
Qed.

Lemma rmatch_inv r : forall st (k : cont) res,
  I st -> rmatch r st k = Some res ->
  exists st', I st' /\ k st' = Some res.
Proof.
  induction r as [|p|r1 IH1 r2 IH2|r1 IH1 r2 IH2|r1 IH1|p|p|n r1 IH1| |];
    intros [i s cs] k res HI H; simpl in H.
  - eauto.
  - destruct s as [|c s]; [discriminate|]. destruct (p c); [|discriminate]. eauto.
  - apply IH1 in H as (st1 & HI1 & H1); eauto.
  - destruct (rmatch r1 (MState i s cs) k) eqn:E.
    + inversion H; subst. eauto.
    + eauto.
  - destruct (rmatch r1 (MState i s cs) k) eqn:E.
    + inversion H; subst. eauto.
    + eauto.
  - destruct s as [|c s]; [discriminate|]. destruct (p c); [|discriminate].
    eapply starGreedy_inv; [|exact H]. eapply I_step; exact HI.
  - destruct s as [|c s]; [discriminate|]. destruct (p c); [|discriminate].
    eapply starLazy_inv; [|exact H]. eapply I_step; exact HI.
  - apply IH1 in H as (st1 & HI1 & H1); [|assumption].
    eexists. split; [|exact H1].
    apply (I_capture (MState i s cs) st1 n); assumption.
  - destruct (Nat.eqb i 0); [eauto|discriminate].
  - destruct s; [eauto|discriminate].
Qed.
End Invariant.

Lemma captured_kept n r st (k : cont) res :
  captured n st -> rmatch r st k = Some res ->
  exists st', captured n st' /\ k st' = Some res.
Proof.
  apply rmatch_inv.
  - intros i c s cs H. exact H.
  - intros st0 st1 m _ H. unfold captured in *. simpl.
    destruct (Nat.eqb m n); [eauto|exact H].
Qed.

Lemma rmatch_reaches r st (k : cont) res :
  rmatch r st k = Some res -> exists st', k st' = Some res.
Proof.
  intros H.
  destruct (rmatch_inv (fun _ => True) (fun _ _ _ _ _ => Logic.I)
              (fun _ _ _ _ _ => Logic.I) r st k res Logic.I H) as (st' & _ & H').
  eauto.
Qed.

Lemma rmatch_binds n r : binds n r = true ->
  forall st (k : cont) res, rmatch r st k = Some res ->
  exists st', captured n st' /\ k st' = Some res.
Proof.
  induction r as [|p|r1 IH1 r2 IH2|r1 IH1 r2 IH2|r1 IH1|p|p|m r1 IH1| |];
    simpl; intros Hb st k res H; try discriminate.
  - apply orb_true_iff in Hb as [Hb|Hb].
    + apply (IH1 Hb) in H as (st1 & Hc & H1).
      eapply captured_kept; eauto.
    + apply rmatch_reaches in H as (st1 & H1). eauto.
  - apply andb_true_iff in Hb as [Hb1 Hb2].
    destruct (rmatch r1 st k) eqn:E.
    + inversion H; subst. eauto.
    + eauto.
  - apply orb_true_iff in Hb as [Hb|Hb].
    + apply rmatch_reaches in H as (st1 & H1).
      eexists. split; [|exact H1]. unfold captured. simpl. rewrite Hb. eauto.
    + apply (IH1 Hb) in H as (st1 & Hc & H1).
      eexists. split; [|exact H1]. unfold captured in *. simpl.
      destruct (Nat.eqb m n); [eauto|exact Hc].
Qed.

Lemma search_rmatch (Q : string -> Prop) r s :
  (forall c t, Q (String c t) -> Q t) ->
  forall i m, Q s -> search r i s = Some m ->
  exists j t st, Q t /\ rmatch r (MState j t []) Some = Some st /\
                 mgroups m = caps st.
Proof.
  intros HQ. induction s as [|c s IH]; intros i m Hs H; simpl in H.
  - destruct (rmatch r (MState i "" []) Some) as [st|] eqn:E; [|discriminate].
    inversion H; subst. exists i, "", st. auto.
  - destruct (rmatch r (MState i (String c s) []) Some) as [st|] eqn:E.
    + inversion H; subst. exists i, (String c s), st. auto.
    + eapply IH; eauto.
Qed.

Lemma search_first r i s st :
  rmatch r (MState i s []) Some = Some st ->
  search r i s = Some (MatchResult i (pos st) (caps st)).
Proof. destruct s; simpl; intros ->; reflexivity. Qed.

(** A group that the pattern cannot avoid is defined in every match. *)
Lemma exec_group_defined r n s m :
  binds n r = true -> exec r s = Some m -> is_Some (group m n).
Proof.
  intros Hb H.
  apply (search_rmatch (fun _ => True)) in H as (j & t & st & _ & H & Hg); auto.
  apply (rmatch_binds n r Hb) in H as (st' & Hc & H').
  inversion H'; subst. unfold group. rewrite Hg. exact Hc.
Qed.

(** The text of a group is made of characters of the input. *)
Lemma exec_group_chars (P : ascii -> bool) r s m n g :
  allChars P s = true -> exec r s = Some m -> group m n = Some g ->
  allChars P g = true.
Proof.
  intros Hs H Hg.
  apply (search_rmatch (fun t => allChars P t = true)) in H
    as (j & t & st & Ht & H & Hm); auto.
  2:{ intros c t' Hc. simpl in Hc. apply andb_true_iff in Hc. tauto. }
  apply (rmatch_inv (charsInv P)) in H as (st' & [_ Hcaps] & H').
  - inversion H'; subst. unfold group in Hg. rewrite Hm in Hg. eauto.
  - intros i c u cs [Hr Hc]. simpl in *. apply andb_true_iff in Hr. split; tauto.
  - intros st0 st1 k [Hr0 _] [Hr1 Hc1]. split; [exact Hr1|].
    simpl. intros n' g'. destruct (Nat.eqb k n').
    + intros [= <-]. apply allChars_substring, Hr0.
    + apply Hc1.
  - split; [exact Ht|]. simpl. discriminate.
Qed.

(** ** The parser returns, it does not throw *)

Lemma trimOf_defined (x : option string) :
  is_Some x -> exists s, x = Some s /\ trimOf x = Normal (trim s).
Proof. intros [s ->]. eauto. Qed.

Lemma splitSlash_normal (channel : string) :
  exists c, splitSlash channel = Normal c.
Proof.
  unfold splitSlash.
  destruct (includes channel "/"); [|eauto].
  destruct (_ && _); [|eauto].
  destruct (exec channelPartPattern _) as [cm|] eqn:E; [|eauto].
  apply (exec_group_defined _ 1) in E as [g ->]; [|reflexivity].
  simpl. eauto.
Qed.

Lemma fromMatch1_normal (command : string) (match1 : matchResult) :
  exec pattern1 command = Some match1 ->
  exists text target c,
    group match1 1 = Some text /\ group match1 2 = Some target /\
    splitSlash (trim target) = Normal c /\
    fromMatch1 match1 = Normal (Some (ParsedCommand (trim text) (resolveChannel c))).
Proof.
  intros E.
  destruct (exec_group_defined pattern1 1 _ _ eq_refl E) as [text H1].
  destruct (exec_group_defined pattern1 2 _ _ eq_refl E) as [target H2].
  destruct (splitSlash_normal (trim target)) as [c Hc].
  exists text, target, c. repeat split; auto.
  unfold fromMatch1. rewrite H1, H2. simpl. rewrite Hc. reflexivity.
Qed.

Lemma fromMatch2_normal (command : string) (match2 : matchResult) :
  exec pattern2 command = Some match2 ->
  exists target text,
    group match2 1 = Some target /\ group match2 2 = Some text /\
    fromMatch2 match2 =
      Normal (Some (ParsedCommand (trim text) (prefixChannel (trim target)))).
Proof.
  intros E.
  destruct (exec_group_defined pattern2 1 _ _ eq_refl E) as [target H1].
  destruct (exec_group_defined pattern2 2 _ _ eq_refl E) as [text H2].
  exists target, text. repeat split; auto.
  unfold fromMatch2. rewrite H1, H2. reflexivity.
Qed.

Lemma parseAICommand_normal (input : string) :
  exists r, parseAICommand input = Normal r.
Proof.
  unfold parseAICommand.
  destruct (exec pattern1 _) as [m1|] eqn:E1.
  - destruct (fromMatch1_normal _ _ E1) as (? & ? & ? & _ & _ & _ & ->). eauto.
  - destruct (exec pattern2 _) as [m2|] eqn:E2; [|eauto].
    destruct (fromMatch2_normal _ _ E2) as (? & ? & _ & _ & ->). eauto.
Qed.

(** The parser lower-cases the whole instruction before it matches, so no
    message it returns holds an upper-case letter. *)
Lemma parseAICommand_message_notUpper (input : string) (parsed : parsedCommand) :
  parseAICommand input = Normal (Some parsed) ->
  allChars notUpper (message parsed) = true.
Proof.
  unfold parseAICommand.
  pose proof (allChars_trim notUpper _ (toLowerCase_notUpper input)) as Hc.
  destruct (exec pattern1 _) as [m1|] eqn:E1.
  - destruct (fromMatch1_normal _ _ E1) as (text & ? & ? & H1 & _ & _ & ->).
    intros [= <-]. simpl.
    apply allChars_trim. eapply exec_group_chars; eauto.
  - destruct (exec pattern2 _) as [m2|] eqn:E2; [|discriminate].
    destruct (fromMatch2_normal _ _ E2) as (? & text & _ & H2 & ->).
    intros [= <-]. simpl.
    apply allChars_trim. eapply exec_group_chars; eauto.
Qed.

(** ** Greedy repetition on a known prefix *)

Lemma append_empty_r (w : string) : w +:+ "" = w.
Proof.
  induction w as [|c w IH]; [reflexivity|].
  change (String c (w +:+ "") = String c w). rewrite IH. reflexivity.
Qed.

Lemma substring_full (w : string) : String.substring 0 (String.length w) w = w.
Proof.
  rewrite <- (append_empty_r w) at 2. apply substring_app_exact.
Qed.

Lemma starGreedy_stop p (k : cont) cs i s :
  headIs p s = false -> starGreedy p k cs i s = k (MState i s cs).
Proof. destruct s as [|c s]; simpl; [reflexivity|]. intros ->. reflexivity. Qed.

Lemma starGreedy_exact p (k : cont) cs w s res : forall i,
  allChars p w = true -> headIs p s = false ->
  k (MState (i + String.length w) s cs) = Some res ->
  starGreedy p k cs i (w +:+ s) = Some res.
Proof.
  induction w as [|c w IH]; intros i Hw Hs Hk.
  - simpl in Hk. rewrite Nat.add_0_r in Hk.
    change (starGreedy p k cs i s = Some res). rewrite starGreedy_stop; assumption.
  - change (starGreedy p k cs i (String c (w +:+ s)) = Some res).
    simpl in *. apply andb_true_iff in Hw as [-> Hw].
    rewrite (IH (S i)); auto. rewrite <- Hk. f_equal. f_equal. lia.
Qed.

Lemma starGreedy_all p (k : cont) cs w res i :
  allChars p w = true ->
  k (MState (i + String.length w) "" cs) = Some res ->
  starGreedy p k cs i w = Some res.
Proof.
  intros Hw Hk. rewrite <- (append_empty_r w) at 1.
  apply starGreedy_exact; auto.
Qed.

Lemma first_some {A : Type} (x y : option A) (r : A) :
  x = Some r -> match x with Some v => Some v | None => y end = Some r.
Proof. intros ->. reflexivity. Qed.

(** ** The resolver on a phrase that is in no table *)



Lemma resolveChannel_cleaned (channel : string) :
  startsWith channel "#" = false -> startsWith channel "@" = false ->
  startsWith channel "C" = false -> startsWith channel "D" = false ->
  resolveChannel channel =
    "#" +:+ toString
      (if toBoolean (getProperty channelMappings (cleanChannel channel))
       then getProperty channelMappings (cleanChannel channel)
       else JStr (cleanChannel channel)).
Proof. intros H1 H2 H3 H4. unfold resolveChannel. rewrite H1, H2, H3, H4. reflexivity. Qed.

(** A phrase whose cleaned form is neither a key of the table nor the name
    of a member of [Object.prototype] becomes [#] and the cleaned form. *)
Lemma resolveChannel_unknown (channel : string) :
  startsWith channel "#" = false -> startsWith channel "@" = false ->
  startsWith channel "C" = false -> startsWith channel "D" = false ->
  channelMappings !! cleanChannel channel = None ->
  objectPrototype (cleanChannel channel) = JUndefined ->
  resolveChannel channel = "#" +:+ cleanChannel channel.
Proof.
  intros H1 H2 H3 H4 Hown Hproto. rewrite resolveChannel_cleaned by assumption.
  unfold getProperty. rewrite Hown, Hproto. reflexivity.
Qed.

Lemma consumes_both P Q r : consumes P r -> consumes Q r -> consumes (both P Q) r.
Proof.
  induction r; simpl; try tauto.
  all: try (intros HP HQ c Hc; unfold both; rewrite (HP c Hc), (HQ c Hc); reflexivity).
  all: intros [? ?] [? ?]; auto.
Qed.

Lemma consumes_any r : consumes (fun _ => true) r.
Proof. induction r; simpl; auto. Qed.

Lemma allChars_both P Q w :
  allChars (both P Q) w = true -> allChars P w = true /\ allChars Q w = true.
Proof.
  induction w as [|c w IH]; simpl; [auto|].
  unfold both at 1. intros H. apply andb_true_iff in H as [Hc Hw].
  apply andb_true_iff in Hc as [-> ->]. simpl. auto.
Qed.

Lemma append_String c s t : String c s +:+ t = String c (s +:+ t).
Proof. reflexivity. Qed.

Lemma append_assoc (a b c : string) : (a +:+ b) +:+ c = a +:+ (b +:+ c).
Proof.
  induction a as [|x a IH]; [reflexivity|].
  rewrite !append_String, IH. reflexivity.
Qed.

Lemma length_append (a b : string) :
  String.length (a +:+ b) = String.length a + String.length b.
Proof.
  induction a as [|x a IH]; [reflexivity|].
  rewrite append_String. simpl. rewrite IH. reflexivity.
Qed.

Lemma advances_here n P l Q st (k : cont) res :
  groupInv n P l st -> k st = Some res -> advances n P l Q 0 st k res.
Proof.
  intros HI Hk. exists "", st. simpl. rewrite Nat.add_0_r.
  split; [reflexivity|]. split; [reflexivity|]. split; [reflexivity|].
  split; [lia|]. split; assumption.
Qed.

Lemma advances_one n P l Q len i c s cs (k : cont) res :
  Q c = true ->
  advances n P l Q len (MState (S i) s cs) k res ->
  advances n P l Q (S len) (MState i (String c s) cs) k res.
Proof.
  intros Hc (w & st1 & Hr & Hpos & Hw & Hlen & HI1 & Hk).
  exists (String c w), st1. simpl in *. rewrite Hr, Hc, Hw.
  split; [reflexivity|]. split; [lia|]. split; [reflexivity|].
  split; [lia|]. split; assumption.
Qed.

Lemma advances_less n P l Q len len' st (k : cont) res :
  len' <= len -> advances n P l Q len st k res -> advances n P l Q len' st k res.
Proof.
  intros Hle (w & st1 & Hr & Hpos & Hw & Hlen & HI1 & Hk).
  exists w, st1.
  split; [assumption|]. split; [assumption|]. split; [assumption|].
  split; [lia|]. split; assumption.
Qed.

Lemma starGreedy_advances n P l Q p (k : cont) cs s :
  (forall c, p c = true -> Q c = true) ->
  forall i res, groupInv n P l (MState i s cs) ->
  starGreedy p k cs i s = Some res ->
  advances n P l Q 0 (MState i s cs) k res.
Proof.
  intros Hp. induction s as [|c s IH]; simpl; intros i res HI H.
  - apply advances_here; auto.
  - destruct (p c) eqn:Hc; [|apply advances_here; auto].
    destruct (starGreedy p k cs (S i) s) as [r|] eqn:E; [|apply advances_here; auto].
    inversion H; subst.
    apply (advances_less _ _ _ _ 1); [lia|].
    apply advances_one; auto.
Qed.

Lemma starLazy_advances n P l Q p (k : cont) cs s :
  (forall c, p c = true -> Q c = true) ->
  forall i res, groupInv n P l (MState i s cs) ->
  starLazy p k cs i s = Some res ->
  advances n P l Q 0 (MState i s cs) k res.
Proof.
  intros Hp. induction s as [|c s IH]; simpl; intros i res HI H.
  - destruct (k (MState i "" cs)) eqn:E; [|discriminate]. inversion H; subst.
    apply advances_here; auto.
  - destruct (k (MState i (String c s) cs)) eqn:E.
    + inversion H; subst. apply advances_here; auto.
    + destruct (p c) eqn:Hc; [|discriminate].
      apply (advances_less _ _ _ _ 1); [lia|].
      apply advances_one; auto.
Qed.

Lemma rmatch_advances n P l r :
  groupsWithin n P l r ->
  forall Q, consumes Q r ->
  forall st (k : cont) res, groupInv n P l st ->
  rmatch r st k = Some res -> advances n P l Q (minLen r) st k res.
Proof.
  induction r as [|p|r1 IH1 r2 IH2|r1 IH1 r2 IH2|r1 IH1|p|p|m r1 IH1| |];
    simpl; intros Hg Q Hq [i s cs] k res HI H; simpl in H.
  - apply advances_here; auto.
  - destruct s as [|c s]; [discriminate|]. destruct (p c) eqn:Hc; [|discriminate].
    apply advances_one; auto. apply advances_here; auto.
  - destruct Hg as [Hg1 Hg2]. destruct Hq as [Hq1 Hq2].
    destruct (IH1 Hg1 Q Hq1 _ _ _ HI H)
      as (w1 & st1 & Hr1 & Hp1 & Hw1 & Hl1 & HI1 & H1).
    destruct (IH2 Hg2 Q Hq2 _ _ _ HI1 H1)
      as (w2 & st2 & Hr2 & Hp2 & Hw2 & Hl2 & HI2 & H2).
    exists (w1 +:+ w2), st2. simpl in *.
    rewrite Hr1, Hr2, append_assoc, length_append, allChars_app, Hw1, Hw2.
    split; [reflexivity|]. split; [lia|]. split; [reflexivity|].
    split; [lia|]. split; assumption.
  - destruct Hg as [Hg1 Hg2]. destruct Hq as [Hq1 Hq2].
    destruct (rmatch r1 (MState i s cs) k) eqn:E.
    + inversion H; subst. eapply advances_less; [|eauto]. lia.
    + eapply advances_less; [|eauto]. lia.
  - destruct (rmatch r1 (MState i s cs) k) eqn:E.
    + inversion H; subst. eapply advances_less; [|eauto]. lia.
    + apply advances_here; auto.
  - destruct s as [|c s]; [discriminate|]. destruct (p c) eqn:Hc; [|discriminate].
    apply advances_one; auto.
    eapply starGreedy_advances; eauto.
  - destruct s as [|c s]; [discriminate|]. destruct (p c) eqn:Hc; [|discriminate].
    apply advances_one; auto.
    eapply starLazy_advances; eauto.
  - destruct Hg as [Hm Hg1].
    assert (consumes (both Q (if Nat.eqb m n then P else fun _ => true)) r1) as Hq'.
    { apply consumes_both; [exact Hq|].
      destruct (Nat.eqb m n) eqn:E; [|apply consumes_any].
      apply Nat.eqb_eq in E. apply Hm, E. }
    destruct (IH1 Hg1 _ Hq' _ _ _ HI H)
      as (w & st1 & Hr & Hpos & Hw & Hlen & HI1 & H1).
    apply allChars_both in Hw as [Hw HwP].
    eexists w, _.
    split; [|split; [|split; [exact Hw|split; [exact Hlen|split; [|exact H1]]]]];
      simpl in *; auto.
    intros g. simpl. destruct (Nat.eqb m n) eqn:E.
    + intros [= <-]. rewrite Hpos, Hr.
      replace (i + String.length w - i) with (String.length w) by lia.
      rewrite substring_app_exact. split; [exact HwP|].
      apply Nat.eqb_eq in E. destruct (Hm E) as [_ Hl]. lia.
    + apply HI1.
  - destruct (Nat.eqb i 0); [|discriminate]. apply advances_here; auto.
  - destruct s; [|discriminate]. apply advances_here; auto.
Qed.

(** The text of a group is made of characters that the group can match,
    and of as many as it must match. *)
Lemma exec_group_class (P : ascii -> bool) (l : nat) r n s m g :
  groupsWithin n P l r -> exec r s = Some m -> group m n = Some g ->
  allChars P g = true /\ l <= String.length g.
Proof.
  intros Hg H Hn.
  apply (search_rmatch (fun _ => True)) in H as (j & t & st & _ & H & Hm); auto.
  apply (rmatch_advances n P l r Hg _ (consumes_any r)) in H
    as (w & st1 & _ & _ & _ & _ & HI & H1).
  - inversion H1; subst. unfold group in Hn. rewrite Hm in Hn. apply HI, Hn.
  - intros g'. simpl. discriminate.
Qed.


(** ** Invariants of the parsed command *)

Lemma pattern1_group1_notQuote : groupsWithin 1 notQuote 1 pattern1.
Proof. unfold pattern1. simpl. repeat split; auto; discriminate. Qed.

Lemma pattern2_group2_notQuote : groupsWithin 2 notQuote 1 pattern2.
Proof. unfold pattern2. simpl. repeat split; auto; discriminate. Qed.

Lemma startsWith_append (p s : string) : startsWith (p +:+ s) p = true.
Proof.
  unfold startsWith. induction p as [|c p IH].
  - destruct s; reflexivity.
  - rewrite append_String. simpl. destruct (ascii_dec c c); [exact IH|congruence].
Qed.

Lemma allChars_split (P : ascii -> bool) (sep : ascii) (s : string) :
  allChars P s = true -> forall i part, split s sep !! i = Some part ->
  allChars P part = true.
Proof.
  induction s as [|c s IH]; simpl; intros H i part Hi.
  - destruct i; simpl in Hi; [|discriminate]. injection Hi as <-. reflexivity.
  - apply andb_true_iff in H as [Hc Hs]. specialize (IH Hs).
    destruct (split s sep) as [|h t] eqn:E.
    + destruct i; simpl in Hi; [|discriminate]. injection Hi as <-.
      simpl. rewrite Hc. reflexivity.
    + destruct (Ascii.eqb c sep).
      * destruct i as [|i]; simpl in Hi.
        -- injection Hi as <-. reflexivity.
        -- apply (IH i). exact Hi.
      * destruct i as [|i]; simpl in Hi.
        -- injection Hi as <-. simpl. rewrite Hc. apply (IH 0). reflexivity.
        -- apply (IH (S i)). exact Hi.
Qed.

(** After the slash handling the target is a user name with [@], or still
    made of characters of the lower-cased instruction. *)
Lemma splitSlash_notUpper (channel c : string) :
  allChars notUpper channel = true -> splitSlash channel = Normal c ->
  startsWith c "@" = true \/ allChars notUpper c = true.
Proof.
  intros Hc. unfold splitSlash.
  destruct (includes channel "/"); [|intros [= <-]; auto].
  destruct (split channel "/" !! 1) as [part|] eqn:E1; simpl.
  - pose proof (allChars_split notUpper _ _ Hc _ _ E1) as Hp.
    destruct (_ && _).
    + destruct (exec channelPartPattern part) as [cm|] eqn:E; [|intros [= <-]; auto].
      destruct (group cm 1) as [g|] eqn:G; simpl; [|discriminate].
      intros [= <-]. right. apply allChars_trim.
      eapply exec_group_chars; eauto.
    + intros [= <-]. left. apply startsWith_append.
  - rewrite andb_false_r. intros [= <-]. left. apply startsWith_append.
Qed.

Lemma resolveChannel_sigil (c : string) :
  startsWith c "@" = true \/ allChars notUpper c = true ->
  startsWith (resolveChannel c) "#" = true \/
  startsWith (resolveChannel c) "@" = true.
Proof.
  intros H. unfold resolveChannel.
  destruct (startsWith c "#") eqn:E1; [auto|].
  destruct (startsWith c "@") eqn:E2; [auto|].
  destruct H as [H|H]; [congruence|].
  rewrite !(notUpper_startsWith _ "" _ H) by reflexivity.
  left. apply startsWith_append.
Qed.

Lemma prefixChannel_sigil (c : string) :
  allChars notUpper c = true ->
  startsWith (prefixChannel c) "#" = true \/
  startsWith (prefixChannel c) "@" = true.
Proof.
  intros H. unfold prefixChannel.
  destruct (startsWith c "#") eqn:E1; [auto|].
  destruct (startsWith c "@") eqn:E2; [auto|].
  rewrite !(notUpper_startsWith _ "" _ H) by reflexivity.
  left. apply startsWith_append.
Qed.

Lemma command_notUpper (input : string) :
  allChars notUpper (trim (toLowerCase input)) = true.
Proof. apply allChars_trim, toLowerCase_notUpper. Qed.

Lemma parseAICommand_sigil (input : string) (parsed : parsedCommand) :
  parseAICommand input = Normal (Some parsed) ->
  startsWith (channel parsed) "#" = true \/ startsWith (channel parsed) "@" = true.
Proof.
  unfold parseAICommand. pose proof (command_notUpper input) as Hc.
  destruct (exec pattern1 _) as [m1|] eqn:E1.
  - destruct (fromMatch1_normal _ _ E1) as (text & target & c & H1 & H2 & H3 & ->).
    intros [= <-]. simpl. apply resolveChannel_sigil.
    apply (splitSlash_notUpper (trim target)); [|exact H3].
    apply allChars_trim. eapply exec_group_chars; eauto.
  - destruct (exec pattern2 _) as [m2|] eqn:E2; [|discriminate].
    destruct (fromMatch2_normal _ _ E2) as (target & text & H1 & H2 & ->).
    intros [= <-]. simpl. apply prefixChannel_sigil.
    apply allChars_trim. eapply exec_group_chars; eauto.
Qed.


Lemma startsWith_char (x a : ascii) (c : string) :
  startsWith (String a c) (String x "") = true -> a = x.
Proof.
  unfold startsWith. simpl. destruct (ascii_dec x a); [auto|discriminate].
Qed.


(** A reference with a sigil is no identifier of the opaque-ID pattern. *)
Lemma sigil_not_opaqueId (c : string) :
  startsWith c "#" = true \/ startsWith c "@" = true -> specOpaqueId c = false.
Proof.
  intros [H|H]; destruct c as [|a c]; try reflexivity;
    apply startsWith_char in H; subst; reflexivity.
Qed.

(** * The claims *)

(** C1 (the code departs from it).  For the instruction
    [send 'Hello team!' to #general] the claim expects the message
    [Hello team!] with its capitals and the reference [#general].  The
    parser lower-cases the whole instruction before it matches (line 386)
    and takes the message out of the lower-cased text: it returns the
    reference [#general] and the message [hello team!]. *)
Theorem C1_message_lower_cased :
  parseAICommand "send 'Hello team!' to #general"
    = Normal (Some (ParsedCommand "hello team!" "#general")).
Proof. vm_compute. reflexivity. Qed.

(** C2 (the code departs from it).  A target with a sigil keeps it, as
    claimed.  An identifier such as [C0123456789] is not returned unchanged:
    the tests of line 414 for a leading [C] or [D] are made on a piece of
    the lower-cased instruction and never hold, so the identifier comes out
    in lower case behind a [#]; the body of a sigil loses its capitals in
    the same way.  No reference that the parser returns matches the
    opaque-ID pattern. *)
Theorem C2_identifier_not_passed_through :
  parseAICommand "send 'hi' to #general"
    = Normal (Some (ParsedCommand "hi" "#general")) /\
  parseAICommand "send 'hi' to @john"
    = Normal (Some (ParsedCommand "hi" "@john")) /\
  specOpaqueId "C0123456789" = true /\
  parseAICommand "send 'hi' to C0123456789"
    = Normal (Some (ParsedCommand "hi" "#c0123456789")) /\
  parseAICommand "tell C0123456789 that hi"
    = Normal (Some (ParsedCommand "hi" "#c0123456789")) /\
  parseAICommand "send 'hi' to #General"
    = Normal (Some (ParsedCommand "hi" "#general")) /\
  (forall (input : string) (parsed : parsedCommand),
     parseAICommand input = Normal (Some parsed) ->
     specOpaqueId (channel parsed) = false).
Proof.
  do 6 (split; [vm_compute; reflexivity|]).
  intros input parsed H. apply sigil_not_opaqueId, (parseAICommand_sigil input), H.
Qed.

(** C3 (the code departs from it).  The instruction with an empty quoted
    text is a parse failure, as claimed.  But for [send ' ' to #general],
    whose quoted text trims to the empty string, the parser returns a
    command with the empty message, and the fallback of [POST], which tests
    only [!parsed], calls the send capability with the empty text. *)
Theorem C3_blank_message_reaches_send :
  parseAICommand "send '' to #general" = Normal None /\
  parseAICommand "send ' ' to #general"
    = Normal (Some (ParsedCommand "" "#general")) /\
  postFallback "send ' ' to #general" = CallSendMessage "#general" "".
Proof. repeat split; vm_compute; reflexivity. Qed.

(** C4, as stated, fails: the instruction [send 'hi` to bob] opens the
    message with an apostrophe and closes it with a backtick, and pattern 1
    matches it. *)
Lemma C4_counterexample :
  squote <> backtick /\
  exec pattern1 "send 'hi` to bob"
    = Some (MatchResult 0 16 [(2%nat, "bob"); (1%nat, "hi")]).
Proof. split; [discriminate|]. vm_compute. reflexivity. Qed.

(** C4 (amended).  In pattern 1 the message is opened by any one of the
    three quote characters and closed by any one of them, the same or
    another: whatever the two are, a text between them that is not empty
    and holds no quote character is the message, and what follows [to] is
    the target. *)
Theorem C4_quotes_matched_independently (q1 q2 : ascii) (body target : string) :
  isQuote q1 = true -> isQuote q2 = true ->
  body <> "" -> allChars notQuote body = true ->
  target <> "" -> headIs isWhiteSpace target = false ->
  allChars isDot target = true ->
  exists m,
    exec pattern1
      ("send " +:+ String q1 (body +:+ String q2 (" to " +:+ target))) = Some m /\
    group m 1 = Some body /\ group m 2 = Some target.
Proof.
  intros Hq1 Hq2 Hb Hbq Ht Htw Htd.
  destruct body as [|b body]; [congruence|].
  destruct target as [|t target]; [congruence|].
  simpl in Hbq, Htw, Htd.
  apply andb_true_iff in Hbq as [Hb1 Hb2].
  apply andb_true_iff in Htd as [Ht1 Ht2].
  assert (exists st,
    rmatch pattern1
      (MState 0 ("send " +:+ String q1
                   (String b body +:+ String q2 (" to " +:+ String t target))) [])
      Some = Some st /\
    lookupGroup 1 (caps st) = Some (String b body) /\
    lookupGroup 2 (caps st) = Some (String t target)) as (st & Hm & H1 & H2).
  { eexists. split.
    - unfold pattern1. simpl.
      rewrite (isQuote_not_isWhiteSpace q1 Hq1), Hq1, Hb1.
      apply first_some.
      apply starGreedy_exact; [exact Hb2|simpl; apply isQuote_notQuote, Hq2|].
      simpl. rewrite Hq2, Htw, Ht1.
      apply starGreedy_all; [exact Ht2|]. simpl. reflexivity.
    - simpl. rewrite substring_app_exact.
      replace (S (String.length body + String.length target) - String.length body)
        with (S (String.length target)) by lia.
      rewrite substring_full. auto. }
  exists (MatchResult 0 (pos st) (caps st)). split; [|auto].
  apply search_first, Hm.
Qed.

Lemma C4_quotes_matched_independently_witness :
  exists m,
    exec pattern1
      ("send " +:+ String squote ("hi" +:+ String backtick (" to " +:+ "bob")))
      = Some m /\
    group m 1 = Some "hi" /\ group m 2 = Some "bob".
Proof.
  apply C4_quotes_matched_independently;
    first [reflexivity | discriminate].
Defined.

(** C5 (the code departs from it).  The claim has every run of white space
    inside the phrase become a hyphen, so that [my cool club] cleans to
    [my-cool-club].  The replacement of line 420 has no [g] flag and
    replaces the first run only: [my cool club] cleans to [my-cool club],
    and the instruction [send 'hi' to my cool club] gets the reference
    [#my-cool club]. *)
Theorem C5_first_run_only :
  cleanChannel "my cool club" = "my-cool club" /\
  parseAICommand "send 'hi' to my cool club"
    = Normal (Some (ParsedCommand "hi" "#my-cool club")).
Proof. split; vm_compute; reflexivity. Qed.



(** C7 (the code departs from it).  The resolver is a total function and
    throws nothing, and [bowling-club] resolves to [#bowling-club], as
    claimed.  But the table is an object literal read with
    [channelMappings[cleanChannel]], which also finds what the literal
    inherits from [Object.prototype]: [constructor] and [__proto__] are in
    no entry of the table, the read gives a function and an object, both
    truthy, and the reference is [#] and their text, not [#] and the
    cleaned phrase. *)
Theorem C7_inherited_member_substituted :
  resolveChannel "bowling-club" = "#bowling-club" /\
  cleanChannel "constructor" = "constructor" /\
  channelMappings !! "constructor" = None /\
  resolveChannel "constructor" = "#function Object() { [native code] }" /\
  cleanChannel "__proto__" = "__proto__" /\
  channelMappings !! "__proto__" = None /\
  resolveChannel "__proto__" = "#[object Object]" /\
  parseAICommand "send 'hi' to constructor"
    = Normal (Some (ParsedCommand "hi" "#function Object() { [native code] }")).
Proof. repeat split; vm_compute; reflexivity. Qed.

(** C8.  Pattern 1 is tried first: whenever the lower-cased, trimmed
    instruction is matched by pattern 1 and by pattern 2, the parser returns
    what it makes of the match of pattern 1: the trimmed first group as the
    message, and the resolved target of the second group as the reference. *)
Theorem C8_pattern1_takes_precedence (input : string) (match1 match2 : matchResult) :
  exec pattern1 (trim (toLowerCase input)) = Some match1 ->
  exec pattern2 (trim (toLowerCase input)) = Some match2 ->
  parseAICommand input = fromMatch1 match1 /\
  exists text target ref,
    group match1 1 = Some text /\ group match1 2 = Some target /\
    splitSlash (trim target) = Normal ref /\
    parseAICommand input
      = Normal (Some (ParsedCommand (trim text) (resolveChannel ref))).
Proof.
  intros E1 E2.
  assert (parseAICommand input = fromMatch1 match1) as Hp.
  { unfold parseAICommand. rewrite E1. reflexivity. }
  split; [exact Hp|].
  destruct (fromMatch1_normal _ _ E1) as (text & target & ref & H1 & H2 & H3 & H4).
  exists text, target, ref. rewrite Hp. auto.
Qed.

Lemma C8_pattern1_takes_precedence_witness :
  parseAICommand "tell bob to send 'hi' to #general"
    = fromMatch1 (MatchResult 12 33 [(2%nat, "#general"); (1%nat, "hi")]) /\
  exists text target ref,
    group (MatchResult 12 33 [(2%nat, "#general"); (1%nat, "hi")]) 1 = Some text /\
    group (MatchResult 12 33 [(2%nat, "#general"); (1%nat, "hi")]) 2 = Some target /\
    splitSlash (trim target) = Normal ref /\
    parseAICommand "tell bob to send 'hi' to #general"
      = Normal (Some (ParsedCommand (trim text) (resolveChannel ref))).
Proof.
  apply (C8_pattern1_takes_precedence "tell bob to send 'hi' to #general" _
           (MatchResult 0 33 [(2%nat, "to #general"); (1%nat, "bob to send 'hi'")]));
    vm_compute; reflexivity.
Defined.

(** C9.  The parser throws for no input string.  When neither pattern
    matches, it returns the failure value [null], and the caller answers
    with status 400 and the fixed list of three example commands. *)
Theorem C9_parser_never_throws (input : string) :
  (exists r, parseAICommand input = Normal r) /\
  (exec pattern1 (trim (toLowerCase input)) = None ->
   exec pattern2 (trim (toLowerCase input)) = None ->
   parseAICommand input = Normal None /\
   postFallback input =
     RespondError 400 INVALID_REQUEST
       [ "send 'Hello team!' to #general";
         "message 'Meeting in 5 minutes' to @john";
         "send 'Good morning' to the development channel" ]).
Proof.
  split; [apply parseAICommand_normal|].
  intros E1 E2.
  assert (parseAICommand input = Normal None) as Hp.
  { unfold parseAICommand. rewrite E1, E2. reflexivity. }
  split; [exact Hp|]. unfold postFallback. rewrite Hp. reflexivity.
Qed.

Lemma C9_parser_never_throws_witness :
  parseAICommand "xyzzy plugh" = Normal None /\
  postFallback "xyzzy plugh" =
    RespondError 400 INVALID_REQUEST
      [ "send 'Hello team!' to #general";
        "message 'Meeting in 5 minutes' to @john";
        "send 'Good morning' to the development channel" ].
Proof.
  apply (proj2 (C9_parser_never_throws "xyzzy plugh")); vm_compute; reflexivity.
Defined.

(** C10, as stated, fails: pattern 2 matches the lower-cased instruction
    [tell bob to send 'hi' to #general] with a target that starts with
    neither [#] nor [@], but pattern 1 matches it too and is tried first:
    the reference is [#general], not [#] before that target. *)
Lemma C10_counterexample :
  exec pattern2 (trim (toLowerCase "tell bob to send 'hi' to #general"))
    = Some (MatchResult 0 33 [(2%nat, "to #general"); (1%nat, "bob to send 'hi'")]) /\
  startsWith (trim "bob to send 'hi'") "#" = false /\
  startsWith (trim "bob to send 'hi'") "@" = false /\
  parseAICommand "tell bob to send 'hi' to #general"
    = Normal (Some (ParsedCommand "hi" "#general")) /\
  "#general" <> "#" +:+ trim "bob to send 'hi'".
Proof. repeat split; try (vm_compute; reflexivity). vm_compute. congruence. Qed.

(** C10 (amended).  When pattern 1 does not match and pattern 2 does, and the trimmed
    target it extracts starts with neither [#] nor [@], the reference is
    [#] put before that trimmed target as matched: no article is stripped,
    no hyphen put in, no synonym substituted. *)
Theorem C10_pattern2_target_only_prefixed
    (input : string) (match2 : matchResult) (target text : string) :
  exec pattern1 (trim (toLowerCase input)) = None ->
  exec pattern2 (trim (toLowerCase input)) = Some match2 ->
  group match2 1 = Some target -> group match2 2 = Some text ->
  startsWith (trim target) "#" = false ->
  startsWith (trim target) "@" = false ->
  parseAICommand input
    = Normal (Some (ParsedCommand (trim text) ("#" +:+ trim target))).
Proof.
  intros E1 E2 G1 G2 Hhash Hat.
  assert (allChars notUpper (trim target) = true) as Hlow.
  { apply allChars_trim.
    apply (exec_group_chars notUpper pattern2 (trim (toLowerCase input)) match2 1);
      auto.
    apply allChars_trim, toLowerCase_notUpper. }
  unfold parseAICommand. rewrite E1, E2.
  unfold fromMatch2. rewrite G1, G2. simpl.
  unfold prefixChannel. rewrite Hhash, Hat.
  rewrite !(notUpper_startsWith _ "" _ Hlow) by reflexivity.
  reflexivity.
Qed.

Lemma C10_pattern2_target_only_prefixed_witness :
  parseAICommand "tell development that hi"
    = Normal (Some (ParsedCommand (trim "hi") ("#" +:+ trim "development"))).
Proof.
  apply (C10_pattern2_target_only_prefixed "tell development that hi"
           (MatchResult 0 24 [(2%nat, "hi"); (1%nat, "development")]));
    vm_compute; reflexivity.
Defined.


(** * Further properties of the code *)

(** ** Invariants of the parsed command, stated *)

(** X1.  What the parser returns always carries a sigil: the reference starts
    with [#] or with [@]. *)
Theorem X_channel_has_sigil (input : string) (parsed : parsedCommand) :
  parseAICommand input = Normal (Some parsed) ->
  startsWith (channel parsed) "#" = true \/ startsWith (channel parsed) "@" = true.
Proof. apply parseAICommand_sigil. Qed.

Lemma X_channel_has_sigil_witness :
  startsWith (channel (ParsedCommand "hi" "#my-cool club")) "#" = true \/
  startsWith (channel (ParsedCommand "hi" "#my-cool club")) "@" = true.
Proof.
  apply (X_channel_has_sigil "send 'hi' to my cool club").
  vm_compute. reflexivity.
Defined.

(** X2.  No message that the parser returns holds an apostrophe, a double quote
    or a backtick: a text with one of them inside cannot be sent. *)
Theorem X_message_has_no_quote (input : string) (parsed : parsedCommand) :
  parseAICommand input = Normal (Some parsed) ->
  allChars notQuote (message parsed) = true.
Proof.
  unfold parseAICommand.
  destruct (exec pattern1 _) as [m1|] eqn:E1.
  - destruct (fromMatch1_normal _ _ E1) as (text & ? & ? & H1 & _ & _ & ->).
    intros [= <-]. simpl. apply allChars_trim.
    exact (proj1 (exec_group_class notQuote 1 _ 1 _ _ _ pattern1_group1_notQuote E1 H1)).
  - destruct (exec pattern2 _) as [m2|] eqn:E2; [|discriminate].
    destruct (fromMatch2_normal _ _ E2) as (? & text & _ & H2 & ->).
    intros [= <-]. simpl. apply allChars_trim.
    exact (proj1 (exec_group_class notQuote 1 _ 2 _ _ _ pattern2_group2_notQuote E2 H2)).
Qed.

Lemma X_message_has_no_quote_witness :
  allChars notQuote (message (ParsedCommand "coffee break!" "#random")) = true.
Proof.
  apply (X_message_has_no_quote "tell #random that 'Coffee break!'").
  vm_compute. reflexivity.
Defined.


(** ** The fallback of [POST] and the Slack service *)

Section Fallback.
Import Service Answer.

Lemma startsWith_nonempty (s p : string) :
  startsWith s p = true -> p <> "" -> s <> "".
Proof. unfold startsWith. destruct s; [destruct p; simpl; congruence|discriminate]. Qed.

Lemma parsed_channel_nonempty (input : string) (parsed : parsedCommand) :
  parseAICommand input = Normal (Some parsed) -> channel parsed <> "".
Proof.
  intros H. destruct (parseAICommand_sigil _ _ H) as [Hs|Hs];
    apply (startsWith_nonempty _ _ Hs); discriminate.
Qed.

Lemma eqb_empty_false (s : string) : s <> "" -> String.eqb s "" = false.
Proof. intros H. apply String.eqb_neq. exact H. Qed.

Lemma orElse_nonempty (s fallback : string) :
  s <> "" -> orElse (Some s) fallback = s.
Proof. intros H. unfold orElse. rewrite (eqb_empty_false _ H). reflexivity. Qed.

(** Every failure of [sendMessage] carries the code [API_ERROR]. *)
Lemma sendMessage_failure_code config triggerAction request code failure :
  fst (sendMessage config triggerAction request) = Failure code failure ->
  code = API_ERROR.
Proof.
  unfold sendMessage.
  destruct (validateInput _ _); [|simpl; congruence].
  destruct config; [|simpl; congruence].
  destruct (triggerAction _) as [response|]; [|simpl; congruence].
  destruct (negb (ok response)); simpl; congruence.
Qed.

(** X6.  The fallback never answers 401: a send that fails is answered with
    400, whatever the failure, because the service reports every failure
    with the code [API_ERROR]; the other answers are 200 and 500. *)
Theorem X_fallback_never_answers_401 secretKey triggerAction nangoConnectionId command :
  let a := fst (postFallbackAnswer secretKey triggerAction nangoConnectionId command) in
  status a = 200 \/ status a = 400 \/ status a = 500.
Proof.
  unfold postFallbackAnswer.
  destruct (parseAICommand command) as [[parsed|]|]; simpl; auto.
  destruct (String.eqb _ _); simpl; auto.
  destruct (validateInput _ _); simpl; auto.
  destruct (sendMessage _ _ _) as [result calls] eqn:E. simpl.
  destruct result as [|code failure]; simpl; auto.
  assert (code = API_ERROR) as ->.
  { apply (sendMessage_failure_code (Some a) triggerAction
             (SendMessageRequest (channel parsed) (message parsed)) _ failure).
    rewrite E. reflexivity. }
  auto.
Qed.


Lemma blank_message_answer
    (key nangoConnectionId command : string) (triggerAction : action)
    (parsed : parsedCommand) :
  parseAICommand command = Normal (Some parsed) ->
  message parsed = "" ->
  key <> "" -> nangoConnectionId <> "" ->
  postFallbackAnswer (Some key) triggerAction nangoConnectionId command =
    (Json 400
       (SendFailure Service.API_ERROR
          "Failed to send message: Validation failed: Message text is required"
          (channel parsed) [] (command, "", channel parsed)),
     []).
Proof.
  intros Hp Hm Hk Hc. unfold postFallbackAnswer. rewrite Hp.
  rewrite (orElse_nonempty _ _ Hk), (eqb_empty_false _ Hk).
  unfold configIssues, minLength1. rewrite (eqb_empty_false _ Hc). simpl.
  unfold sendMessage, sendMessageIssues, minLength1. simpl.
  rewrite (eqb_empty_false _ (parsed_channel_nonempty _ _ Hp)), Hm. simpl.
  unfold sendFailure. rewrite Hm. vm_compute. reflexivity.
Qed.

(** X7.  A command whose message is empty after trimming is answered with 400
    and the validation error of the service; the action of Nango is not
    called, so nothing is sent to Slack. *)
Theorem X_blank_message_not_sent
    (key nangoConnectionId command : string) (triggerAction : action)
    (parsed : parsedCommand) :
  parseAICommand command = Normal (Some parsed) ->
  message parsed = "" ->
  key <> "" -> nangoConnectionId <> "" ->
  postFallbackAnswer (Some key) triggerAction nangoConnectionId command =
    (Json 400
       (SendFailure Service.API_ERROR
          "Failed to send message: Validation failed: Message text is required"
          (channel parsed) [] (command, "", channel parsed)),
     []).
Proof. apply blank_message_answer. Qed.

Lemma X_blank_message_not_sent_witness :
  postFallbackAnswer (Some "secret") (fun _ => Returned (ActionResponse true None None))
      "connection-1" "send ' ' to #general" =
    (Json 400
       (SendFailure Service.API_ERROR
          "Failed to send message: Validation failed: Message text is required"
          (channel (ParsedCommand "" "#general")) []
          ("send ' ' to #general", "", channel (ParsedCommand "" "#general"))),
     []).
Proof.
  apply X_blank_message_not_sent; first [discriminate | vm_compute; reflexivity].
Defined.


Lemma postFallbackAnswer_sends
    (key nangoConnectionId command : string) (triggerAction : action)
    (parsed : parsedCommand) :
  parseAICommand command = Normal (Some parsed) ->
  message parsed <> "" -> key <> "" -> nangoConnectionId <> "" ->
  postFallbackAnswer (Some key) triggerAction nangoConnectionId command =
    let call := ActionCall nangoConnectionId (channel parsed) (message parsed) in
    (match triggerAction call with
     | Raised failure =>
         sendFailure command parsed Service.API_ERROR
           ("Failed to send message: " +:+ failure)
     | Returned response =>
         if ok response then
           Json 200 (Sent (orElse (ts response) "") (orElse (ts response) "")
                       (command, message parsed, channel parsed))
         else
           sendFailure command parsed Service.API_ERROR
             ("Failed to send message: " +:+
              orElse (error response) "Unknown error" +:+ " " +:+
              suggestionsFor (error response))
     end, [call]).
Proof.
  intros Hp Hm Hk Hc. unfold postFallbackAnswer. rewrite Hp.
  rewrite (orElse_nonempty _ _ Hk), (eqb_empty_false _ Hk).
  unfold configIssues, minLength1. rewrite (eqb_empty_false _ Hc). simpl.
  unfold sendMessage, sendMessageIssues, minLength1. simpl.
  rewrite (eqb_empty_false _ (parsed_channel_nonempty _ _ Hp)),
    (eqb_empty_false _ Hm). simpl.
  destruct (triggerAction _) as [response|failure]; [|reflexivity].
  destruct (ok response); simpl; [reflexivity|].
  assert (String.eqb (suggestionsFor (error response)) "" = false) as ->.
  { unfold suggestionsFor. destruct (error response) as [e|]; [|reflexivity].
    repeat (destruct (String.eqb e _); [reflexivity|]). reflexivity. }
  simpl. rewrite append_assoc. reflexivity.
Qed.

(** X8.  When Slack does not know the channel, or the user is not in it, the
    fallback answers 400, names the parsed channel in the message, and adds
    three, respectively two, suggestions. *)
Theorem X_channel_errors_explained
    (key nangoConnectionId command : string) (triggerAction : action)
    (parsed : parsedCommand) (response : actionResponse) :
  parseAICommand command = Normal (Some parsed) ->
  message parsed <> "" -> key <> "" -> nangoConnectionId <> "" ->
  triggerAction (ActionCall nangoConnectionId (channel parsed) (message parsed))
    = Returned response ->
  ok response = false ->
  let a := fst (postFallbackAnswer (Some key) triggerAction nangoConnectionId command) in
  (error response = Some "channel_not_found" ->
   a = Json 400
         (SendFailure Service.API_ERROR
            ("Channel " +:+ quoted (channel parsed) +:+ " not found or not accessible")
            (channel parsed)
            [ "Try using exact channel names like #general, #dev, or #random";
              "Make sure you're a member of the channel " +:+ quoted (channel parsed);
              "Use @username for direct messages instead of channel names" ]
            (command, message parsed, channel parsed))) /\
  (error response = Some "not_in_channel" ->
   a = Json 400
         (SendFailure Service.API_ERROR
            ("You're not a member of channel " +:+ quoted (channel parsed))
            (channel parsed)
            [ "Ask an admin to invite you to " +:+ channel parsed;
              "Try a public channel you're already in like #general" ]
            (command, message parsed, channel parsed))).
Proof.
  intros Hp Hm Hk Hc Ha Hok a. subst a.
  rewrite (postFallbackAnswer_sends _ _ _ _ _ Hp Hm Hk Hc). simpl.
  rewrite Ha, Hok. split; intros ->; reflexivity.
Qed.

Lemma X_channel_errors_explained_witness :
  let a := fst (postFallbackAnswer (Some "secret")
                  (fun _ => Returned (ActionResponse false (Some "channel_not_found") None))
                  "connection-1" "send 'hi' to the bowling club") in
  (Some "channel_not_found" = Some "channel_not_found" ->
   a = Json 400
         (SendFailure Service.API_ERROR
            ("Channel " +:+ quoted (channel (ParsedCommand "hi" "#bowling-club")) +:+
             " not found or not accessible")
            (channel (ParsedCommand "hi" "#bowling-club"))
            [ "Try using exact channel names like #general, #dev, or #random";
              "Make sure you're a member of the channel " +:+
                quoted (channel (ParsedCommand "hi" "#bowling-club"));
              "Use @username for direct messages instead of channel names" ]
            ("send 'hi' to the bowling club",
             message (ParsedCommand "hi" "#bowling-club"),
             channel (ParsedCommand "hi" "#bowling-club")))) /\
  (Some "channel_not_found" = Some "not_in_channel" ->
   a = Json 400
         (SendFailure Service.API_ERROR
            ("You're not a member of channel " +:+
             quoted (channel (ParsedCommand "hi" "#bowling-club")))
            (channel (ParsedCommand "hi" "#bowling-club"))
            [ "Ask an admin to invite you to " +:+
                channel (ParsedCommand "hi" "#bowling-club");
              "Try a public channel you're already in like #general" ]
            ("send 'hi' to the bowling club",
             message (ParsedCommand "hi" "#bowling-club"),
             channel (ParsedCommand "hi" "#bowling-club")))).
Proof.
  apply (X_channel_errors_explained "secret" "connection-1"
           "send 'hi' to the bowling club" _ (ParsedCommand "hi" "#bowling-club")
           (ActionResponse false (Some "channel_not_found") None));
    first [discriminate | vm_compute; reflexivity].
Defined.

(** X9.  The fallback answers 200 only when the action of Nango was called once,
    with the connection of the request and the parsed channel and message,
    the message was not empty, and the action answered [ok]. *)
Theorem X_success_means_sent
    (key nangoConnectionId command : string) (triggerAction : action) :
  key <> "" -> nangoConnectionId <> "" ->
  status (fst (postFallbackAnswer (Some key) triggerAction nangoConnectionId command)) = 200 ->
  exists parsed response,
    parseAICommand command = Normal (Some parsed) /\
    message parsed <> "" /\
    snd (postFallbackAnswer (Some key) triggerAction nangoConnectionId command)
      = [ActionCall nangoConnectionId (channel parsed) (message parsed)] /\
    triggerAction (ActionCall nangoConnectionId (channel parsed) (message parsed))
      = Returned response /\
    ok response = true.
Proof.
  intros Hk Hc.
  destruct (parseAICommand command) as [[parsed|]|] eqn:Hp.
  2,3: unfold postFallbackAnswer; rewrite Hp; simpl; discriminate.
  destruct (string_dec (message parsed) "") as [Hm|Hm].
  - rewrite (blank_message_answer _ _ _ triggerAction _ Hp Hm Hk Hc). simpl. discriminate.
  - rewrite (postFallbackAnswer_sends _ _ _ _ _ Hp Hm Hk Hc). simpl.
    destruct (triggerAction _) as [response|failure] eqn:Ha.
    + destruct (ok response) eqn:Hok.
      * intros _. exists parsed, response. auto.
      * unfold sendFailure. simpl. discriminate.
    + unfold sendFailure. simpl. discriminate.
Qed.

Lemma X_success_means_sent_witness :
  exists parsed response,
    parseAICommand "send 'hi' to #general" = Normal (Some parsed) /\
    message parsed <> "" /\
    snd (postFallbackAnswer (Some "secret")
           (fun _ => Returned (ActionResponse true None (Some "1700000000.000100")))
           "connection-1" "send 'hi' to #general")
      = [ActionCall "connection-1" (channel parsed) (message parsed)] /\
    (fun _ => Returned (ActionResponse true None (Some "1700000000.000100")))
      (ActionCall "connection-1" (channel parsed) (message parsed))
      = Returned response /\
    ok response = true.
Proof.
  apply (X_success_means_sent "secret" "connection-1" "send 'hi' to #general"
           (fun _ => Returned (ActionResponse true None (Some "1700000000.000100"))));
    first [discriminate | vm_compute; reflexivity].
Defined.

End Fallback.


(** ** Letter case and margins of the instruction *)

Lemma toLowerChar_idempotent (c : ascii) : toLowerChar (toLowerChar c) = toLowerChar c.
Proof. by_cases_on_char c. Qed.

Lemma isWhiteSpace_toLowerChar (c : ascii) :
  isWhiteSpace (toLowerChar c) = isWhiteSpace c.
Proof. by_cases_on_char c. Qed.

Lemma toLowerCase_idempotent (s : string) :
  toLowerCase (toLowerCase s) = toLowerCase s.
Proof.
  induction s as [|c s IH]; simpl; [reflexivity|].
  rewrite toLowerChar_idempotent, IH. reflexivity.
Qed.

Lemma toLowerCase_trimStart (s : string) :
  toLowerCase (trimStart s) = trimStart (toLowerCase s).
Proof.
  induction s as [|c s IH]; simpl; [reflexivity|].
  rewrite isWhiteSpace_toLowerChar. destruct (isWhiteSpace c); [exact IH|reflexivity].
Qed.

Lemma toLowerCase_trimEnd (s : string) :
  toLowerCase (trimEnd s) = trimEnd (toLowerCase s).
Proof.
  induction s as [|c s IH]; simpl; [reflexivity|].
  rewrite <- IH, isWhiteSpace_toLowerChar.
  destruct (trimEnd s); simpl; [destruct (isWhiteSpace c)|]; reflexivity.
Qed.

Lemma trimEnd_idempotent (s : string) : trimEnd (trimEnd s) = trimEnd s.
Proof.
  induction s as [|c s IH]; simpl; [reflexivity|].
  destruct (trimEnd s) as [|d t] eqn:E.
  - destruct (isWhiteSpace c) eqn:Hc; simpl; [reflexivity|]. rewrite Hc. reflexivity.
  - change (trimEnd (String c (String d t))) with
      (match trimEnd (String d t) with
       | "" => if isWhiteSpace c then "" else String c ""
       | u => String c u
       end).
    rewrite IH. reflexivity.
Qed.

Lemma trimStart_head (s : string) : headIs isWhiteSpace (trimStart s) = false.
Proof.
  induction s as [|c s IH]; simpl; [reflexivity|].
  destruct (isWhiteSpace c) eqn:Hc; [exact IH|]. simpl. exact Hc.
Qed.

Lemma trimStart_trimEnd (s : string) :
  headIs isWhiteSpace s = false -> trimStart (trimEnd s) = trimEnd s.
Proof.
  destruct s as [|c s]; simpl; [reflexivity|]. intros Hc.
  destruct (trimEnd s); rewrite ?Hc; simpl; rewrite ?Hc; reflexivity.
Qed.

Lemma trim_idempotent (s : string) : trim (trim s) = trim s.
Proof.
  unfold trim. rewrite (trimStart_trimEnd _ (trimStart_head s)).
  apply trimEnd_idempotent.
Qed.

Lemma toLowerCase_trim (s : string) : toLowerCase (trim s) = trim (toLowerCase s).
Proof. unfold trim. rewrite toLowerCase_trimEnd, toLowerCase_trimStart. reflexivity. Qed.

(** X3.  The parser ignores the letter case of the instruction and the white
    space around it. *)
Theorem X_case_and_margins_ignored (input : string) :
  parseAICommand (toLowerCase input) = parseAICommand input /\
  parseAICommand (trim input) = parseAICommand input.
Proof.
  unfold parseAICommand. split.
  - rewrite toLowerCase_idempotent. reflexivity.
  - rewrite toLowerCase_trim, trim_idempotent. reflexivity.
Qed.

(** ** The two versions of the parser *)

Lemma fromMatch1_v1_normal (command : string) (match1 : matchResult) :
  exec pattern1 command = Some match1 ->
  exists text target c,
    group match1 1 = Some text /\ group match1 2 = Some target /\
    splitSlash (trim target) = Normal c /\
    RouteV1.fromMatch1 match1
      = Normal (Some (ParsedCommand (trim text) (RouteV1.prefixKnownChannel c))).
Proof.
  intros E.
  destruct (fromMatch1_normal _ _ E) as (text & target & c & H1 & H2 & H3 & _).
  exists text, target, c. repeat split; auto.
  unfold RouteV1.fromMatch1. rewrite H1, H2. simpl. rewrite H3. reflexivity.
Qed.

(** X4.  The first and the later version of [parseAICommand] fail on the same
    instructions, return the same message when they do not fail, and return
    the same command when pattern 1 does not match: they differ in the
    reference of pattern 1 only. *)
Theorem X_versions_agree (input : string) :
  (RouteV1.parseAICommand input = Normal None <-> parseAICommand input = Normal None) /\
  (forall p1 p2, RouteV1.parseAICommand input = Normal (Some p1) ->
                 parseAICommand input = Normal (Some p2) ->
                 message p1 = message p2) /\
  (exec pattern1 (trim (toLowerCase input)) = None ->
   RouteV1.parseAICommand input = parseAICommand input).
Proof.
  unfold RouteV1.parseAICommand, parseAICommand.
  destruct (exec pattern1 _) as [m1|] eqn:E1.
  - destruct (fromMatch1_normal _ _ E1) as (text & target & c & H1 & H2 & H3 & ->).
    destruct (fromMatch1_v1_normal _ _ E1) as (text' & target' & c' & H1' & _ & _ & ->).
    assert (text' = text) as -> by congruence.
    repeat split; try discriminate.
    intros p1 p2 [= <-] [= <-]. reflexivity.
  - repeat split; auto.
    intros p1 p2 -> [= ->]. reflexivity.
Qed.

Lemma X_versions_agree_witness :
  RouteV1.parseAICommand "tell development that hi"
    = parseAICommand "tell development that hi".
Proof.
  apply (proj2 (proj2 (X_versions_agree "tell development that hi"))).
  vm_compute. reflexivity.
Defined.

(** X5.  The first version can return a reference without a sigil: a target of
    pattern 1 that has no slash, no sigil and none of the words [general],
    [dev], [team], [random] in it is returned as it is. *)
Theorem X_first_version_leaves_target
    (input : string) (match1 : matchResult) (text target : string) :
  exec pattern1 (trim (toLowerCase input)) = Some match1 ->
  group match1 1 = Some text -> group match1 2 = Some target ->
  includes (trim target) "/" = false ->
  startsWith (trim target) "#" = false -> startsWith (trim target) "@" = false ->
  includes (trim target) "general" = false -> includes (trim target) "dev" = false ->
  includes (trim target) "team" = false -> includes (trim target) "random" = false ->
  RouteV1.parseAICommand input
    = Normal (Some (ParsedCommand (trim text) (trim target))).
Proof.
  intros E1 G1 G2 Hs Hh Ha H1 H2 H3 H4.
  unfold RouteV1.parseAICommand. rewrite E1.
  unfold RouteV1.fromMatch1. rewrite G1, G2. simpl.
  unfold splitSlash. rewrite Hs. simpl.
  unfold RouteV1.prefixKnownChannel. rewrite Hh, Ha, H1, H2, H3, H4. simpl.
  destruct (_ && _); reflexivity.
Qed.

Lemma X_first_version_leaves_target_witness :
  RouteV1.parseAICommand "send 'hi' to bob"
    = Normal (Some (ParsedCommand (trim "hi") (trim "bob"))).
Proof.
  apply (X_first_version_leaves_target "send 'hi' to bob"
           (MatchResult 0 16 [(2%nat, "bob"); (1%nat, "hi")]));
    vm_compute; reflexivity.
Defined.


(** ** Canonical instructions *)

Lemma resolveChannel_passthrough (c : string) :
  startsWith c "#" = true \/ startsWith c "@" = true ->
  resolveChannel c = c.
Proof.
  unfold resolveChannel. intros [H|H]; rewrite H; cbn [negb];
    rewrite ?andb_false_r, ?andb_false_l; reflexivity.
Qed.

(** X10.  Resolving a reference that was resolved changes nothing. *)
Theorem X_resolve_idempotent (c : string) :
  resolveChannel (resolveChannel c) = resolveChannel c.
Proof.
  unfold resolveChannel at 2 3.
  destruct (negb (startsWith c "#") && negb (startsWith c "@") &&
            negb (startsWith c "C") && negb (startsWith c "D")) eqn:E.
  - apply resolveChannel_passthrough. left. apply startsWith_append.
  - unfold resolveChannel. rewrite E. reflexivity.
Qed.

Lemma toLowerChar_notUpper (c : ascii) : notUpper c = true -> toLowerChar c = c.
Proof. unfold notUpper, toLowerChar. destruct (isUpper c); [discriminate|reflexivity]. Qed.

Lemma toLowerCase_notUpper_id (s : string) :
  allChars notUpper s = true -> toLowerCase s = s.
Proof.
  induction s as [|c s IH]; simpl; [reflexivity|]. intros H.
  apply andb_true_iff in H as [Hc Hs].
  rewrite (toLowerChar_notUpper _ Hc), (IH Hs). reflexivity.
Qed.

Lemma append_nonempty_r (x c : string) : c <> "" -> x +:+ c <> "".
Proof. destruct x; [auto|rewrite append_String; discriminate]. Qed.

Lemma trimEnd_append (x c : string) :
  trimEnd c = c -> c <> "" -> trimEnd (x +:+ c) = x +:+ c.
Proof.
  intros Hc Hne. induction x as [|a x IH]; [exact Hc|].
  rewrite append_String. simpl. rewrite IH.
  destruct (x +:+ c) eqn:E; [|reflexivity].
  exfalso. apply (append_nonempty_r x c Hne E).
Qed.

Lemma trim_fixed_trimStart (c : string) :
  headIs isWhiteSpace c = false -> trimStart c = c.
Proof. destruct c as [|a c]; simpl; [reflexivity|]. intros ->. reflexivity. Qed.

Lemma sigil_head (c : string) :
  startsWith c "#" = true \/ startsWith c "@" = true ->
  headIs isWhiteSpace c = false /\ c <> "".
Proof.
  destruct c as [|a c]; [intros [H|H]; discriminate H|].
  intros [H|H]; apply startsWith_char in H; subst a;
    (split; [reflexivity|discriminate]).
Qed.

(** Pattern 1 on [send 'm' to c]. *)
Lemma pattern1_canonical (m c : string) :
  m <> "" -> allChars notQuote m = true ->
  c <> "" -> headIs isWhiteSpace c = false -> allChars isDot c = true ->
  exists m1,
    exec pattern1 ("send '" +:+ m +:+ "' to " +:+ c) = Some m1 /\
    group m1 1 = Some m /\ group m1 2 = Some c.
Proof.
  intros Hm Hmq Hc Hcw Hcd.
  destruct m as [|b m]; [congruence|].
  destruct c as [|t c]; [congruence|].
  simpl in Hmq, Hcw, Hcd.
  apply andb_true_iff in Hmq as [Hb1 Hb2].
  apply andb_true_iff in Hcd as [Ht1 Ht2].
  assert (exists st,
    rmatch pattern1
      (MState 0 ("send '" +:+ String b m +:+ "' to " +:+ String t c) []) Some
      = Some st /\
    lookupGroup 1 (caps st) = Some (String b m) /\
    lookupGroup 2 (caps st) = Some (String t c)) as (st & Hst & H1 & H2).
  { eexists. split.
    - unfold pattern1. simpl. rewrite Hb1.
      apply first_some.
      apply starGreedy_exact; [exact Hb2|reflexivity|].
      simpl. rewrite Hcw, Ht1.
      apply starGreedy_all; [exact Ht2|]. simpl. reflexivity.
    - simpl. rewrite substring_app_exact.
      replace (S (String.length m + String.length c) - String.length m)
        with (S (String.length c)) by lia.
      rewrite substring_full. auto. }
  exists (MatchResult 0 (pos st) (caps st)). split; [|auto].
  apply search_first, Hst.
Qed.

(** X11.  An instruction in the canonical form [send '<message>' to <reference>],
    with a message and a reference as the parser returns them, parses to
    exactly that message and that reference. *)
Theorem X_canonical_instruction_parses (m c : string) :
  m <> "" -> allChars notQuote m = true -> allChars notUpper m = true ->
  trim m = m ->
  startsWith c "#" = true \/ startsWith c "@" = true ->
  allChars isDot c = true -> allChars notUpper c = true ->
  trim c = c -> includes c "/" = false ->
  parseAICommand ("send '" +:+ m +:+ "' to " +:+ c)
    = Normal (Some (ParsedCommand m c)).
Proof.
  intros Hm Hmq Hml Hmt Hsig Hcd Hcl Hct Hslash.
  destruct (sigil_head c Hsig) as [Hcw Hc].
  assert (trimEnd c = c) as Hce.
  { unfold trim in Hct. rewrite (trim_fixed_trimStart c Hcw) in Hct. exact Hct. }
  unfold parseAICommand.
  assert (trim (toLowerCase ("send '" +:+ m +:+ "' to " +:+ c))
          = "send '" +:+ m +:+ "' to " +:+ c) as ->.
  { rewrite toLowerCase_notUpper_id.
    - unfold trim.
      rewrite (trim_fixed_trimStart ("send '" +:+ m +:+ "' to " +:+ c) eq_refl).
      rewrite <- !append_assoc. apply trimEnd_append; assumption.
    - rewrite !allChars_app, Hml, Hcl. reflexivity. }
  destruct (pattern1_canonical m c Hm Hmq Hc Hcw Hcd) as (m1 & -> & G1 & G2).
  unfold fromMatch1. rewrite G1, G2. simpl. rewrite Hmt, Hct.
  unfold splitSlash. rewrite Hslash. simpl.
  rewrite (resolveChannel_passthrough c Hsig). reflexivity.
Qed.

Lemma X_canonical_instruction_parses_witness :
  parseAICommand ("send '" +:+ "hello team!" +:+ "' to " +:+ "#dev")
    = Normal (Some (ParsedCommand "hello team!" "#dev")).
Proof.
  apply X_canonical_instruction_parses;
    first [discriminate | left; reflexivity | reflexivity].
Defined.


(** ** The second parser and its tool *)

Section Mcp.
Import Service McpSlack.

Lemma isChannelChar_isUserChar (c : ascii) : isChannelChar c = true -> isUserChar c = true.
Proof. unfold isUserChar. intros ->. reflexivity. Qed.

Lemma channelPatterns_groups :
  Forall (fun r => binds 1 r = true /\ groupsWithin 1 isUserChar 1 r) channelPatterns.
Proof.
  unfold channelPatterns.
  repeat (apply Forall_cons; split; [split; [reflexivity|]|]);
    try apply Forall_nil; simpl; repeat split; auto;
    try discriminate; try (intros; apply isChannelChar_isUserChar; assumption).
Qed.

Lemma userChar_name_no_sigil (name p : string) (c : ascii) :
  allChars isUserChar name = true -> isUserChar c = false ->
  startsWith name (String c p) = false.
Proof.
  intros Hn Hc. unfold startsWith. destruct name as [|d name]; simpl; auto.
  destruct (ascii_dec c d) as [<-|Hne]; [|reflexivity].
  simpl in Hn. rewrite Hc in Hn. discriminate.
Qed.

Lemma findChannel_shape (normalizedCommand : string) (patterns : list regex) :
  allChars notUpper normalizedCommand = true ->
  Forall (fun r => binds 1 r = true /\ groupsWithin 1 isUserChar 1 r) patterns ->
  exists result,
    findChannel normalizedCommand patterns = Normal result /\
    forall ch, result = Some ch -> channelShape normalizedCommand ch.
Proof.
  intros Hlow. induction 1 as [|r patterns [Hb Hg] _ IH]; simpl.
  - exists None. split; [reflexivity|discriminate].
  - destruct (exec r normalizedCommand) as [m|] eqn:E; [|exact IH].
    destruct (exec_group_defined r 1 _ _ Hb E) as [name Hname]. rewrite Hname.
    destruct (exec_group_class isUserChar 1 r 1 _ _ _ Hg E Hname) as [Hclass Hlen].
    pose proof (exec_group_chars notUpper r _ _ _ _ Hlow E Hname) as Hnl.
    assert (name <> "") as Hne by (intros ->; simpl in Hlen; lia).
    rewrite (userChar_name_no_sigil name "" "@" Hclass eq_refl),
      (userChar_name_no_sigil name "" "#" Hclass eq_refl).
    unfold channelShape, sigilOf.
    destruct (_ || _); (eexists; split; [reflexivity|]);
      intros ch [= <-]; exists name; auto.
Qed.

Lemma mcp_parse_normal (command : string) :
  exists parsed,
    parseAICommand command = Normal parsed /\
    forall ch, channel parsed = Some ch ->
    channelShape (trim (toLowerCase command)) ch.
Proof.
  unfold parseAICommand.
  destruct (findChannel_shape _ channelPatterns (command_notUpper command)
              channelPatterns_groups) as (result & -> & Hshape).
  simpl. eexists. split; [reflexivity|]. exact Hshape.
Qed.

(** X12.  The channel that the second parser returns is [@] or [#] and a name
    that is not empty and is made of lower-case letters, digits, hyphens,
    underscores and dots; the sigil is [@] as soon as the lower-cased
    command holds an [@] or the word [message] followed by a space, also
    when the command names a [#] channel. *)
Theorem X_mcp_channel_shape (command : string) (parsed : parsedCommand) (ch : string) :
  parseAICommand command = Normal parsed ->
  channel parsed = Some ch ->
  exists name,
    ch = (if includes (trim (toLowerCase command)) "@" ||
             includes (trim (toLowerCase command)) "message "
          then "@" else "#") +:+ name /\
    name <> "" /\
    allChars isUserChar name = true /\ allChars notUpper name = true.
Proof.
  intros Hp Hch. destruct (mcp_parse_normal command) as (parsed' & Hp' & Hshape).
  rewrite Hp in Hp'. injection Hp' as <-. exact (Hshape ch Hch).
Qed.

Lemma X_mcp_channel_shape_witness :
  exists name,
    "@general" = (if includes (trim (toLowerCase "message 'Hi' to #general")) "@" ||
                     includes (trim (toLowerCase "message 'Hi' to #general")) "message "
                  then "@" else "#") +:+ name /\
    name <> "" /\
    allChars isUserChar name = true /\ allChars notUpper name = true.
Proof.
  apply (X_mcp_channel_shape "message 'Hi' to #general"
           (ParsedCommand (Some "@general") (Some "Hi")));
    vm_compute; reflexivity.
Defined.




End Mcp.


Section McpMessage.
Import Service McpSlack.

Lemma trim_nonempty (s : string) : trim s <> "" -> s <> "".
Proof. intros H ->. apply H. reflexivity. Qed.

Lemma first_pattern_quoted (q : ascii) (verb body rest : string) :
  In verb ["send"; "message"; "tell"; "say"] ->
  q = squote \/ q = dquote ->
  allChars (fun c => negb (Ascii.eqb c q)) body = true ->
  body <> "" ->
  exists m,
    exec (hd REmpty messagePatterns)
      (verb +:+ " " +:+ String q (body +:+ String q (" to " +:+ rest))) = Some m /\
    orUndefined (group m 1) (orUndefined (group m 2) (group m 3)) = Some body.
Proof.
  intros Hverb Hq Hbody Hne.
  destruct body as [|b body]; [congruence|].
  simpl in Hbody. apply andb_true_iff in Hbody as [Hb Hbody].
  assert (exists st,
    rmatch (hd REmpty messagePatterns)
      (MState 0 (verb +:+ " " +:+ String q (String b body +:+ String q (" to " +:+ rest))) [])
      Some = Some st /\
    orUndefined (lookupGroup 1 (caps st))
      (orUndefined (lookupGroup 2 (caps st)) (lookupGroup 3 (caps st)))
      = Some (String b body)) as (st & Hm & Hg).
  { simpl in Hverb.
    destruct Hverb as [<-|[<-|[<-|[<-|[]]]]]; destruct Hq as [->| ->];
      (eexists; split;
       [ unfold messagePatterns; simpl; unfold notSquote, notDquote; simpl in Hb; rewrite Hb;
         repeat apply first_some;
         apply starGreedy_exact;
           [exact Hbody | reflexivity | simpl; reflexivity]
       | simpl; rewrite substring_app_exact; reflexivity ]). }
  exists (MatchResult 0 (pos st) (caps st)). split; [|exact Hg].
  apply search_first, Hm.
Qed.

(** X14.  A message between two apostrophes or two double quotes, after one of
    the four verbs and before [to], is returned by the second parser as
    it was written, trimmed: its capitals are kept. *)
Theorem X_mcp_quoted_message_kept (q : ascii) (verb body rest : string) :
  In verb ["send"; "message"; "tell"; "say"] ->
  q = squote \/ q = dquote ->
  allChars (fun c => negb (Ascii.eqb c q)) body = true ->
  trim body <> "" ->
  exists ch,
    parseAICommand (verb +:+ " " +:+ String q (body +:+ String q (" to " +:+ rest)))
      = Normal (ParsedCommand ch (Some (trim body))).
Proof.
  intros Hverb Hq Hbody Htrim.
  pose proof (trim_nonempty _ Htrim) as Hne.
  destruct (first_pattern_quoted q verb body rest Hverb Hq Hbody Hne) as (m & Hm & Hg).
  unfold parseAICommand.
  destruct (findChannel_shape _ channelPatterns
              (command_notUpper (verb +:+ " " +:+ String q (body +:+ String q (" to " +:+ rest))))
              channelPatterns_groups) as (ch & -> & _).
  exists ch. unfold mbind, completion_bind. cbv zeta.
  assert (findMessage (verb +:+ " " +:+ String q (body +:+ String q (" to " +:+ rest)))
            messagePatterns None = Some (trim body)) as ->.
  { unfold messagePatterns in *. cbn [hd] in Hm. cbn [findMessage].
    rewrite Hm, Hg. cbn [falsy]. rewrite (eqb_empty_false _ Hne). reflexivity. }
  cbn [falsy]. rewrite (eqb_empty_false _ Htrim). reflexivity.
Qed.

Lemma X_mcp_quoted_message_kept_witness :
  exists ch,
    parseAICommand ("send" +:+ " " +:+ String squote ("Hello team!" +:+ String squote (" to " +:+ "#general")))
      = Normal (ParsedCommand ch (Some (trim "Hello team!"))).
Proof.
  apply X_mcp_quoted_message_kept;
    first [ left; reflexivity | discriminate | reflexivity ].
Defined.
End McpMessage.


(** ** Retry *)

Section RetryProperties.
Import Retry.
Context {A E : Type}.
Variable times : number -> number -> number.
Variable mathPow : number -> number -> number.
Variable o : options.
Variable shouldRetry : E -> outcome bool E.
Variable fn : nat -> outcome A E.

Lemma lessOrEqual_refl (q : Q) : lessOrEqual (Finite q) (Finite q) = true.
Proof. simpl. apply Qle_bool_iff, Qle_refl. Qed.

Lemma mathMin_bound (a b : number) :
  mathMin a b = NaN \/ lessOrEqual (mathMin a b) b = true.
Proof.
  destruct a as [| | |p]; destruct b as [| | |q];
    try (left; reflexivity); try (right; reflexivity);
    try (right; apply lessOrEqual_refl).
  simpl. destruct (Qle_bool p q) eqn:H; right; [exact H|apply lessOrEqual_refl].
Qed.

(** A count below one that is within [m] is within [m], and is not [m]. *)
Lemma count_below (a b : N) (m : number) :
  (a < b)%N -> lessOrEqual (ofCount b) m = true ->
  lessOrEqual (ofCount a) m = true /\ strictlyEqual (ofCount a) m = false.
Proof.
  intros Hab. destruct m as [| | |q]; simpl; try discriminate; auto.
  intros Hb. apply Qle_bool_iff in Hb.
  assert (inject_Z (Z.of_N a) < inject_Z (Z.of_N b))%Q as Hlt
    by (rewrite <- Zlt_Qlt; lia).
  split.
  - apply Qle_bool_iff, Qlt_le_weak. eapply Qlt_le_trans; eauto.
  - destruct (Qeq_bool _ q) eqn:Heq; [|reflexivity].
    apply Qeq_bool_eq in Heq. rewrite Heq in Hlt.
    exfalso. eapply Qlt_irrefl, Qlt_le_trans; eauto.
Qed.

Lemma increment_succ (a : N) : (a < maxCount)%N -> increment a = N.succ a.
Proof.
  intros H. unfold increment.
  destruct (N.eqb_spec a maxCount); [lia|reflexivity].
Qed.

Lemma of_nat_succ (n : nat) : N.succ (N.of_nat n) = N.of_nat (S n).
Proof. lia. Qed.

(** [k] failures that are retried: the loop goes on from attempt
    [call + k + 1] with the last error, and their delays come first. *)
Lemma loop_retried (k : nat) : forall fuel call lastError,
  (N.of_nat (call + k) < maxCount)%N ->
  (forall j, j < k ->
     lessOrEqual (ofCount (N.of_nat (S (call + j)))) (maxAttempts o) = true /\
     strictlyEqual (ofCount (N.of_nat (S (call + j)))) (maxAttempts o) = false /\
     exists e, fn (call + j) = Throws e /\ shouldRetry e = Returns true) ->
  exists last,
    (k = 0 -> last = lastError) /\
    (forall e, 0 < k -> fn (call + k - 1) = Throws e -> last = Some e) /\
    loop times mathPow o shouldRetry fn (k + fuel) (N.of_nat (S call)) call lastError
      = (r ← loop times mathPow o shouldRetry fn fuel
               (N.of_nat (S (call + k))) (call + k) last;
         Some (Run (result r) (delaysFrom times mathPow o (S call) k ++ delays r) (k + calls r))).
Proof.
  induction k as [|k IH]; intros fuel call lastError Hmax Hretried.
  - exists lastError. split; [auto|]. split; [lia|].
    rewrite Nat.add_0_r. simpl.
    destruct (loop _ _ _ _ _ _ _ _ _) as [[res ds c]|]; reflexivity.
  - destruct (Hretried 0) as (Hle & Hne & e0 & He0 & Hr0); [lia|].
    rewrite Nat.add_0_r in Hle, Hne, He0.
    destruct (IH fuel (S call) (Some e0)) as (last & Hlast0 & Hlast & Heq).
    { replace (S call + k) with (call + S k) by lia. exact Hmax. }
    { intros j Hj. destruct (Hretried (S j)) as (H1 & H2 & H3); [lia|].
      replace (S call + j) with (call + S j) by lia. auto. }
    exists last. split; [lia|]. split.
    + intros e _ He. destruct k as [|k].
      * rewrite Hlast0 by reflexivity.
        replace (call + 1 - 1) with call in He by lia. congruence.
      * apply Hlast; [lia|].
        replace (S call + S k - 1) with (call + S (S k) - 1) by lia. exact He.
    + change (S k + fuel) with (S (k + fuel)). cbn [loop].
      rewrite Hle, He0, Hne, Hr0.
      rewrite increment_succ by lia. rewrite of_nat_succ, Heq. clear Heq.
      replace (S call + k) with (call + S k) by lia.
      destruct (loop times mathPow o shouldRetry fn fuel _ _ last)
        as [[res ds c]|]; reflexivity.
Qed.

(** The run that ends at call [k], counted from 0, after [k] failures that
    were retried. *)
Lemma loop_run (k fuel : nat) (stop : run A E) :
  (N.of_nat k < maxCount)%N -> k < fuel ->
  lessOrEqual (ofCount (N.of_nat (S k))) (maxAttempts o) = true ->
  (forall j, j < k -> exists e, fn j = Throws e /\ shouldRetry e = Returns true) ->
  (forall last,
     loop times mathPow o shouldRetry fn (fuel - k) (N.of_nat (S k)) k last
       = Some stop) ->
  withRetry times mathPow o shouldRetry fn fuel
    = Some (Run (result stop) (delaysFrom times mathPow o 1 k ++ delays stop) (k + calls stop)).
Proof.
  intros Hmax Hfuel Hle Hbefore Hstop. unfold withRetry.
  destruct (loop_retried k (fuel - k) 0 None) as (last & _ & _ & Heq).
  - exact Hmax.
  - intros j Hj. simpl.
    destruct (count_below (N.of_nat (S j)) (N.of_nat (S k)) (maxAttempts o))
      as [H1 H2]; [lia|exact Hle|].
    auto.
  - replace (k + (fuel - k)) with fuel in Heq by lia.
    change (N.of_nat 1) with 1%N in Heq. rewrite Heq. simpl.
    rewrite Hstop. reflexivity.
Qed.

Lemma loop_bounds (fuel : nat) : forall attempt call lastError r,
  attempt = N.min (N.of_nat (S call)) maxCount ->
  loop times mathPow o shouldRetry fn fuel attempt call lastError = Some r ->
  List.length (delays r) <= calls r /\
  (forall v, result r = Resolved v -> S (List.length (delays r)) = calls r) /\
  Forall (fun d => d = NaN \/ lessOrEqual d (maxDelay o) = true) (delays r) /\
  (0 < calls r -> (N.of_nat (call + calls r) <= maxCount)%N ->
   lessOrEqual (ofCount (N.of_nat (call + calls r))) (maxAttempts o) = true).
Proof.
  induction fuel as [|fuel IH]; intros attempt call lastError r Ha; [discriminate|].
  cbn [loop].
  destruct (lessOrEqual (ofCount attempt) _) eqn:Hle.
  2:{ intros [= <-]. simpl. repeat split; auto; try discriminate; lia. }
  assert (forall res : settled A E,
    (forall v, res = Resolved v -> True) ->
    let r1 := Run res [] 1 in
    List.length (delays r1) <= calls r1 /\
    (forall v, result r1 = Resolved v -> S (List.length (delays r1)) = calls r1) /\
    Forall (fun d => d = NaN \/ lessOrEqual d (maxDelay o) = true) (delays r1) /\
    (0 < calls r1 -> (N.of_nat (call + calls r1) <= maxCount)%N ->
     lessOrEqual (ofCount (N.of_nat (call + calls r1))) (maxAttempts o) = true))
    as Hone.
  { intros res _. simpl. repeat split; auto.
    intros _ Hc. replace (N.of_nat (call + 1)) with attempt by lia. exact Hle. }
  destruct (fn call) as [value|error]; [intros [= <-]; apply Hone; auto|].
  destruct (strictlyEqual _ _) eqn:Heq; [intros [= <-]; apply Hone; auto|].
  destruct (shouldRetry error) as [[|]|thrown];
    [|intros [= <-]; apply Hone; auto..].
  destruct (loop _ _ _ _ _ fuel _ _ _) as [r'|] eqn:Hr'; [|discriminate].
  intros [= <-]. simpl.
  destruct (IH (increment attempt) (S call) (Some error) r') as (H1 & H2 & H3 & H4);
    [unfold increment; destruct (N.eqb_spec attempt maxCount); lia|exact Hr'|].
  split; [lia|]. split.
  - intros v Hv. rewrite (H2 v Hv). reflexivity.
  - split.
    + constructor; [apply mathMin_bound|exact H3].
    + intros _ Hc. destruct (calls r') as [|c] eqn:Hcalls.
      * replace (N.of_nat (call + 1)) with attempt by lia. exact Hle.
      * replace (call + S (S c)) with (S call + S c) by lia.
        apply H4; [lia|]. rewrite <- Hc. f_equal. lia.
Qed.

Lemma floor_count (n : nat) (q : Q) :
  (inject_Z (Z.of_N (N.of_nat n)) <= q)%Q -> n <= Z.to_nat (Qfloor q).
Proof.
  intros H. apply Qfloor_resp_le in H. rewrite Qfloor_Z in H. lia.
Qed.

Lemma loop_returns (q : Q) (fuel : nat) : forall call lastError,
  maxAttempts o = Finite q -> (q < inject_Z (Z.of_N maxCount))%Q ->
  Z.to_nat (Qfloor q) - call < fuel ->
  exists r,
    loop times mathPow o shouldRetry fn fuel (N.of_nat (S call)) call lastError
      = Some r.
Proof.
  intros call lastError Hq Hmax. revert call lastError.
  induction fuel as [|fuel IH]; intros call lastError Hfuel; [lia|].
  cbn [loop]. rewrite Hq.
  destruct (lessOrEqual _ _) eqn:Hle; [|eauto].
  unfold lessOrEqual, ofCount in Hle. apply Qle_bool_iff in Hle.
  pose proof (floor_count _ _ Hle) as Hfloor.
  assert (N.of_nat (S call) < maxCount)%N as Hlt.
  { assert (inject_Z (Z.of_N (N.of_nat (S call))) < inject_Z (Z.of_N maxCount))%Q
      as H by (eapply Qle_lt_trans; eauto).
    rewrite <- Zlt_Qlt in H. lia. }
  destruct (fn call) as [value|error]; [eauto|].
  destruct (strictlyEqual _ _); [eauto|].
  destruct (shouldRetry error) as [[|]|thrown]; eauto.
  rewrite increment_succ by exact Hlt. rewrite of_nat_succ.
  destruct (IH (S call) (Some error)) as [r Hr]; [lia|].
  rewrite Hr. simpl. eauto.
Qed.

Lemma strictlyEqual_lessOrEqual (n : N) (m : number) :
  strictlyEqual (ofCount n) m = true -> lessOrEqual (ofCount n) m = true.
Proof.
  destruct m as [| | |q]; simpl; try discriminate.
  intros H. apply Qeq_bool_eq in H. apply Qle_bool_iff. rewrite H. apply Qle_refl.
Qed.

Lemma loop_stops (fuel : nat) (attempt : N) (call : nat) (lastError : option E) :
  0 < fuel -> lessOrEqual (ofCount attempt) (maxAttempts o) = false ->
  loop times mathPow o shouldRetry fn fuel attempt call lastError
    = Some (Run (Rejected lastError) [] 0).
Proof.
  intros Hfuel Hle. destruct fuel as [|fuel]; [lia|]. cbn [loop].
  rewrite Hle. reflexivity.
Qed.

End RetryProperties.

Section RetryTheorems.
Import Retry.
Context {A E : Type}.
Variable times : number -> number -> number.
Variable mathPow : number -> number -> number.

(** X15.  [retry] is [withRetry] with every error retried.  When
    [maxAttempts] is a number below 2^53 the loop ends, within as many
    rounds as its whole part and one more.  Whatever the function does and
    whatever [shouldRetry] answers, a run that ends has handed no more
    delays to [setTimeout] than it made calls, one less when it resolved;
    every delay is [NaN] or at most [maxDelay]; and the number of calls, if
    any and up to 2^53, is at most [maxAttempts]. *)
Theorem X_retry_bounds (o : options) (shouldRetry : E -> outcome bool E)
    (fn : nat -> outcome A E) :
  (forall fuel, retry times mathPow o fn fuel
     = withRetry times mathPow o (fun _ => Returns true) fn fuel) /\
  (forall q fuel, maxAttempts o = Finite q ->
     (q < inject_Z (Z.of_N maxCount))%Q -> Z.to_nat (Qfloor q) < fuel ->
     exists r, withRetry times mathPow o shouldRetry fn fuel = Some r) /\
  (forall fuel r, withRetry times mathPow o shouldRetry fn fuel = Some r ->
     List.length (delays r) <= calls r /\
     (forall v, result r = Resolved v -> S (List.length (delays r)) = calls r) /\
     Forall (fun d => d = NaN \/ lessOrEqual d (maxDelay o) = true) (delays r) /\
     (0 < calls r -> (N.of_nat (calls r) <= maxCount)%N ->
      lessOrEqual (ofCount (N.of_nat (calls r))) (maxAttempts o) = true)).
Proof.
  split; [reflexivity|]. split.
  - intros q fuel Hq Hmax Hfuel.
    apply (loop_returns times mathPow o shouldRetry fn q fuel 0 None Hq Hmax). lia.
  - intros fuel r Hr.
    apply (loop_bounds times mathPow o shouldRetry fn fuel 1 0 None r);
      [reflexivity|exact Hr].
Qed.

(** X16.  [retry] resolves with the value of the first call that returns,
    when that call is within [maxAttempts]: after [k] failures it has made
    [k + 1] calls and has handed to [setTimeout], in order, the delays
    computed for the attempts 1 to [k]. *)
Theorem X_retry_first_success (o : options) (fn : nat -> outcome A E)
    (k fuel : nat) (v : A) :
  (N.of_nat k < maxCount)%N -> k < fuel ->
  lessOrEqual (ofCount (N.of_nat (S k))) (maxAttempts o) = true ->
  (forall j, j < k -> exists e, fn j = Throws e) ->
  fn k = Returns v ->
  retry times mathPow o fn fuel
    = Some (Run (Resolved v) (delaysFrom times mathPow o 1 k) (S k)).
Proof.
  intros Hmax Hfuel Hle Hbefore Hv.
  rewrite <- (app_nil_r (delaysFrom times mathPow o 1 k)), <- (Nat.add_1_r k).
  apply (loop_run times mathPow o (fun _ => Returns true) fn k fuel
           (Run (Resolved v) [] 1)); auto.
  - intros j Hj. destruct (Hbefore j Hj) as [e He]. eauto.
  - intros last. destruct (fuel - k) as [|f] eqn:Hf; [lia|]. cbn [loop].
    rewrite Hle, Hv. reflexivity.
Qed.

(** X17.  When [maxAttempts] does not allow a first attempt, [retry] does
    not call the function and rejects with [undefined].  When
    [maxAttempts] is the whole number [n + 1] and all [n + 1] calls throw,
    it rejects with the error of the last call after the delays of the
    attempts 1 to [n], none after the last.  When [maxAttempts] lies
    strictly between [n + 1] and [n + 2], it makes the same [n + 1] calls
    but hands one more delay to [setTimeout], after the last call, before
    it rejects with the error of that call. *)
Theorem X_retry_exhausted (o : options) (fn : nat -> outcome A E) :
  (forall fuel, 0 < fuel ->
     lessOrEqual (ofCount 1) (maxAttempts o) = false ->
     retry times mathPow o fn fuel = Some (Run (Rejected None) [] 0)) /\
  (forall n e fuel, (N.of_nat n < maxCount)%N -> n < fuel ->
     strictlyEqual (ofCount (N.of_nat (S n))) (maxAttempts o) = true ->
     (forall j, j < n -> exists e', fn j = Throws e') -> fn n = Throws e ->
     retry times mathPow o fn fuel
       = Some (Run (Rejected (Some e)) (delaysFrom times mathPow o 1 n) (S n))) /\
  (forall n e fuel, (N.of_nat (S n) < maxCount)%N -> S n < fuel ->
     lessOrEqual (ofCount (N.of_nat (S n))) (maxAttempts o) = true ->
     strictlyEqual (ofCount (N.of_nat (S n))) (maxAttempts o) = false ->
     lessOrEqual (ofCount (N.of_nat (S (S n)))) (maxAttempts o) = false ->
     (forall j, j < n -> exists e', fn j = Throws e') -> fn n = Throws e ->
     retry times mathPow o fn fuel
       = Some (Run (Rejected (Some e)) (delaysFrom times mathPow o 1 (S n)) (S n))).
Proof.
  split; [|split].
  - intros fuel Hfuel Hle. apply loop_stops; assumption.
  - intros n e fuel Hmax Hfuel Heq Hbefore He.
    pose proof (strictlyEqual_lessOrEqual _ _ Heq) as Hle.
    rewrite <- (app_nil_r (delaysFrom times mathPow o 1 n)), <- (Nat.add_1_r n).
    apply (loop_run times mathPow o (fun _ => Returns true) fn n fuel
             (Run (Rejected (Some e)) [] 1)); auto.
    + intros j Hj. destruct (Hbefore j Hj) as [e' He']. eauto.
    + intros last. destruct (fuel - n) as [|f] eqn:Hf; [lia|]. cbn [loop].
      rewrite Hle, He, Heq. reflexivity.
  - intros n e fuel Hmax Hfuel Hle Hne Hend Hbefore He. unfold retry.
    destruct (loop_retried times mathPow o (fun _ => Returns true) fn
                (S n) (fuel - S n) 0 None) as (last & _ & Hlast & Heq).
    + exact Hmax.
    + intros j Hj. simpl. destruct (Nat.eq_dec j n) as [->|Hjn].
      * eauto.
      * destruct (count_below (N.of_nat (S j)) (N.of_nat (S n)) (maxAttempts o))
          as [H1 H2]; [lia|exact Hle|].
        destruct (Hbefore j) as [e' He']; [lia|]. eauto.
    + replace (S n + (fuel - S n)) with fuel in Heq by lia.
      change (N.of_nat 1) with 1%N in Heq. rewrite Heq. simpl.
      rewrite loop_stops; [|lia|exact Hend]. simpl.
      rewrite (Hlast e);
        [|lia|replace (0 + S n - 1) with n by lia; exact He].
      rewrite app_nil_r, Nat.add_0_r. reflexivity.
Qed.

(** X18.  [withRetry] gives up at the first error for which [shouldRetry]
    does not answer yes: the function is not called again and no further
    delay is handed to [setTimeout].  When the answer is no, the promise
    rejects with that error; when [shouldRetry] throws, which it is asked
    to do only if the attempt is not the last, the promise rejects with
    what it threw. *)
Theorem X_withRetry_gives_up (o : options) (shouldRetry : E -> outcome bool E)
    (fn : nat -> outcome A E) (k fuel : nat) (e : E) :
  (N.of_nat k < maxCount)%N -> k < fuel ->
  lessOrEqual (ofCount (N.of_nat (S k))) (maxAttempts o) = true ->
  (forall j, j < k -> exists e', fn j = Throws e' /\ shouldRetry e' = Returns true) ->
  fn k = Throws e ->
  (shouldRetry e = Returns false ->
   withRetry times mathPow o shouldRetry fn fuel
     = Some (Run (Rejected (Some e)) (delaysFrom times mathPow o 1 k) (S k))) /\
  (forall thrown,
     strictlyEqual (ofCount (N.of_nat (S k))) (maxAttempts o) = false ->
     shouldRetry e = Throws thrown ->
     withRetry times mathPow o shouldRetry fn fuel
       = Some (Run (Rejected (Some thrown)) (delaysFrom times mathPow o 1 k) (S k))).
Proof.
  intros Hmax Hfuel Hle Hbefore He. split.
  - intros Hno.
    rewrite <- (app_nil_r (delaysFrom times mathPow o 1 k)), <- (Nat.add_1_r k).
    apply (loop_run times mathPow o shouldRetry fn k fuel
             (Run (Rejected (Some e)) [] 1)); auto.
    intros last. destruct (fuel - k) as [|f] eqn:Hf; [lia|]. cbn [loop].
    rewrite Hle, He, Hno. destruct (strictlyEqual _ _); reflexivity.
  - intros thrown Hne Hthrows.
    rewrite <- (app_nil_r (delaysFrom times mathPow o 1 k)), <- (Nat.add_1_r k).
    apply (loop_run times mathPow o shouldRetry fn k fuel
             (Run (Rejected (Some thrown)) [] 1)); auto.
    intros last. destruct (fuel - k) as [|f] eqn:Hf; [lia|]. cbn [loop].
    rewrite Hle, He, Hne, Hthrows. reflexivity.
Qed.

End RetryTheorems.

Lemma X_retry_first_success_witness :
  Retry.retry exactTimes exactPow Retry.defaultOptions
    (fun i => if Nat.ltb i 2 then Retry.Throws "SERVICE_UNAVAILABLE"
              else Retry.Returns "done") 3
    = Some (Retry.Run (Retry.Resolved "done")
              (delaysFrom exactTimes exactPow Retry.defaultOptions 1 2) 3).
Proof.
  apply (X_retry_first_success exactTimes exactPow Retry.defaultOptions _ 2 3 "done").
  - reflexivity.
  - lia.
  - reflexivity.
  - intros j Hj. exists "SERVICE_UNAVAILABLE".
    destruct j as [|[|j]]; [reflexivity|reflexivity|lia].
  - reflexivity.
Defined.

Lemma X_retry_exhausted_witness :
  Retry.retry (A := string) exactTimes exactPow
    (Retry.Options (Retry.Finite (5 # 2)) (Retry.ofCount 1000)
       (Retry.ofCount 10000) (Retry.ofCount 2))
    (fun _ => Retry.Throws "RATE_LIMITED") 3
    = Some (Retry.Run (Retry.Rejected (Some "RATE_LIMITED"))
              (delaysFrom exactTimes exactPow
                 (Retry.Options (Retry.Finite (5 # 2)) (Retry.ofCount 1000)
                    (Retry.ofCount 10000) (Retry.ofCount 2)) 1 2) 2).
Proof.
  apply (proj2 (proj2 (X_retry_exhausted exactTimes exactPow _ _)) 1 "RATE_LIMITED" 3).
  - reflexivity.
  - lia.
  - reflexivity.
  - reflexivity.
  - reflexivity.
  - intros j _. exists "RATE_LIMITED". reflexivity.
  - reflexivity.
Defined.

Lemma X_withRetry_gives_up_witness :
  Retry.withRetry (A := string) exactTimes exactPow Retry.defaultOptions
    (fun code => Retry.Returns (String.eqb code "RATE_LIMITED"))
    (fun i => if Nat.eqb i 0 then Retry.Throws "RATE_LIMITED"
              else Retry.Throws "UNKNOWN_ERROR") 2
    = Some (Retry.Run (Retry.Rejected (Some "UNKNOWN_ERROR"))
              (delaysFrom exactTimes exactPow Retry.defaultOptions 1 1) 2).
Proof.
  refine (proj1 (X_withRetry_gives_up exactTimes exactPow Retry.defaultOptions
                   _ _ 1 2 "UNKNOWN_ERROR" _ _ _ _ _) _).
  - reflexivity.
  - lia.
  - reflexivity.
  - intros j Hj. exists "RATE_LIMITED". destruct j; [auto|lia].
  - reflexivity.
  - reflexivity.
Defined.


(** ** The tool registry *)

Section RegistryProperties.
Import Service Registry.

Lemma append_empty_l (s : string) : "" +:+ s = s.
Proof. reflexivity. Qed.

Lemma allChars_dot (x y : string) : allChars notDot (x +:+ String "." y) = false.
Proof.
  induction x as [|c x IH]; [reflexivity|].
  rewrite append_String. simpl. rewrite IH. apply andb_false_r.
Qed.

(** Without a dot in the tool names the key determines the server and the
    tool. *)
Lemma toolKey_injective (a a' b b' : string) :
  allChars notDot b = true -> allChars notDot b' = true ->
  toolKey a b = toolKey a' b' -> a = a' /\ b = b'.
Proof.
  unfold toolKey. intros Hb Hb'. revert a'.
  induction a as [|c a IH]; intros [|c' a'] H;
    repeat rewrite ?append_String, ?append_empty_l in H.
  - injection H as ->. auto.
  - injection H as <- ->. rewrite allChars_dot in Hb. discriminate.
  - injection H as -> <-. rewrite allChars_dot in Hb'. discriminate.
  - injection H as <- H.
    destruct (IH a' H) as [-> ->]. auto.
Qed.

Lemma indexTools_keyed id s tools : forall index,
  Forall (fun t => allChars notDot (name t) = true) tools ->
  keyed index -> keyed (indexTools id s tools index).
Proof.
  unfold indexTools.
  induction tools as [|t tools IH]; intros index Hdots Hk; simpl; [exact Hk|].
  inversion Hdots as [|? ? Ht Hts]; subst. apply IH; [exact Hts|].
  intros k e. rewrite lookup_insert. destruct (decide _) as [<-|_].
  - intros [= <-]. simpl. auto.
  - apply Hk.
Qed.

Lemma indexTools_kept id s tools k : forall index,
  is_Some (index !! k) -> is_Some (indexTools id s tools index !! k).
Proof.
  unfold indexTools.
  induction tools as [|t tools IH]; intros index Hk; simpl; [exact Hk|].
  apply IH. rewrite lookup_insert. destruct (decide _); [eauto|exact Hk].
Qed.

Lemma indexTools_found id s tools t : forall index,
  In t tools -> is_Some (indexTools id s tools index !! toolKey id (name t)).
Proof.
  unfold indexTools.
  induction tools as [|t' tools IH]; intros index Hin; simpl; [contradiction|].
  destruct Hin as [->|Hin].
  - apply (indexTools_kept id s tools). rewrite lookup_insert_eq. eauto.
  - apply IH, Hin.
Qed.

Lemma buildToolIndex_spec (servers : list (string * server)) : forall index,
  dotless servers -> keyed index ->
  let result :=
    fold_left
      (fun index '(serverId, s) =>
         match getTools s with
         | Returned tools => indexTools serverId s tools index
         | Raised _ => index
         end)
      servers index in
  keyed result /\
  (forall k, is_Some (index !! k) -> is_Some (result !! k)) /\
  (forall id s tools t, In (id, s) servers -> getTools s = Returned tools ->
     In t tools -> is_Some (result !! toolKey id (name t))).
Proof.
  induction servers as [|[id0 s0] servers IH]; intros index Hdots Hk; simpl.
  - split; [exact Hk|]. split; [auto|]. intros id s tools t [].
  - assert (dotless servers) as Hdots'.
    { intros id s tools t Hin. apply (Hdots id s tools t). right. exact Hin. }
    destruct (getTools s0) as [tools0|] eqn:E0.
    + assert (keyed (indexTools id0 s0 tools0 index)) as Hk'.
      { apply indexTools_keyed; [|exact Hk]. apply Forall_forall.
        intros t Ht. apply list_elem_of_In in Ht.
        apply (Hdots id0 s0 tools0 t); [left; reflexivity|exact E0|exact Ht]. }
      destruct (IH _ Hdots' Hk') as (Hr & Hkept & Hfound).
      split; [exact Hr|]. split.
      * intros k Hs. apply Hkept, indexTools_kept, Hs.
      * intros id s tools t [[= -> ->]|Hin] Hg Ht.
        -- rewrite E0 in Hg. injection Hg as <-.
           apply Hkept, indexTools_found, Ht.
        -- eapply Hfound; eauto.
    + destruct (IH _ Hdots' Hk) as (Hr & Hkept & Hfound).
      split; [exact Hr|]. split; [exact Hkept|].
      intros id s tools t [[= -> ->]|Hin] Hg Ht; [congruence|].
      eapply Hfound; eauto.
Qed.

(** X19.  When no tool name holds a dot, every tool that a registered server
    lists is found again by [getTool] under its server and its name, in an
    entry that carries that server and that name. *)
Theorem X_registry_finds_listed_tools
    (servers : list (string * server)) (id : string) (s : server)
    (tools : list tool) (t : tool) :
  (forall id' s' tools' t', In (id', s') servers -> getTools s' = Returned tools' ->
     In t' tools' -> allChars notDot (name t') = true) ->
  In (id, s) servers -> getTools s = Returned tools -> In t tools ->
  exists entry,
    getTool (buildToolIndex servers) id (name t) = Some entry /\
    serverId entry = id /\ toolName entry = name t.
Proof.
  intros Hdots Hin Hg Ht. unfold buildToolIndex, getTool.
  destruct (buildToolIndex_spec servers ∅ Hdots) as (Hk & _ & Hfound).
  { intros k e. rewrite lookup_empty. discriminate. }
  destruct (Hfound id s tools t Hin Hg Ht) as [entry He].
  exists entry. split; [exact He|].
  destruct (Hk _ _ He) as [Hkey Hd].
  apply toolKey_injective in Hkey as [-> ->]; auto.
  apply (Hdots id s tools t); assumption.
Qed.

End RegistryProperties.

Lemma X_registry_finds_listed_tools_witness :
  exists entry,
    Registry.getTool
      (Registry.buildToolIndex [("slack-mcp", SlackServer.slackServer)])
      "slack-mcp"
      (Registry.name (Registry.Tool "slack_health_check"
         "Check the health and connectivity of the Slack integration"))
      = Some entry /\
    Registry.serverId entry = "slack-mcp" /\
    Registry.toolName entry
      = Registry.name (Registry.Tool "slack_health_check"
          "Check the health and connectivity of the Slack integration").
Proof.
  apply (X_registry_finds_listed_tools
           [("slack-mcp", SlackServer.slackServer)] "slack-mcp"
           SlackServer.slackServer SlackServer.tools).
  - intros id' s' tools' t' [[= <- <-]|[]] [= <-] Ht.
    simpl in Ht. repeat (destruct Ht as [<-|Ht]; [reflexivity|]). contradiction.
  - left. reflexivity.
  - reflexivity.
  - simpl. auto 10.
Defined.
